(** * The chart node of ros/src/tools/chart.py

    The node keeps four lock-guarded stores (track, pose, path, traffic
    lights), fills them from subscriber callbacks and drains them from a
    5 Hz render loop that drives matplotlib.

    The accessors and the pose, path and signal callbacks touch shared
    fields only between an [acquire] and the matching [release] of the
    store's own lock, so each of their bodies is one atomic step of the
    node; concurrency is the interleaving of these steps.  The track
    callback is the exception: its assertion reads the track before the lock
    is taken, so the assertion and the locked rest are two steps, and a
    second track callback can run between them.  Coordinates are float64 and
    are only moved around, never computed with.  [copy.deepcopy] of the
    immutable values modelled here is the identity. *)

From Stdlib Require Import Floats.PrimFloat.
From Stdlib Require Import NArith String Lia Sorted.
From stdpp Require Import base list.

(** ** Python exceptions that the node can raise *)

Inductive exn := AssertionError | StopIteration | IndexError | TypeError.

Inductive result (A : Type) :=
| Ok (a : A)
| Raise (e : exn).
Arguments Ok {A} a.
Arguments Raise {A} e.

#[global] Instance result_ret : MRet result := @Ok.
#[global] Instance result_bind : MBind result := λ A B f m,
  match m with Ok a => f a | Raise e => Raise e end.
#[global] Instance result_fmap : FMap result := λ A B f m,
  match m with Ok a => Ok (f a) | Raise e => Raise e end.

(** ** Messages: the fields the node reads *)

Module Msg.
(** geometry_msgs/Point, of which [x] and [y] are read. *)
Record Point := { x : float; y : float }.
(** geometry_msgs/PoseStamped, read as [msg.pose.position]. *)
Record PoseStamped := { pose_position : Point }.
(** styx_msgs/Waypoint, read as [waypoint.pose.pose.position]. *)
Record Waypoint := { position : Point }.
(** styx_msgs/Lane. *)
Record Lane := { waypoints : list Waypoint }.
(** styx_msgs/TrafficLight, read as [tl.pose.pose.position] and
    [tl.state] (a uint8). *)
Record TrafficLight := { tl_position : Point; state : N }.
(** styx_msgs/TrafficLightArray. *)
Record TrafficLightArray := { lights : list TrafficLight }.
End Msg.

Inductive topic :=
| base_waypoints | current_pose | final_waypoints | vehicle_traffic_lights.

(** ** The fields of [Chart] *)

Definition PoseValue := option (float * float).
Definition Light : Type := float * float * N.

Record Chart := {
  waypoints : list Msg.Waypoint;
  pose : PoseValue;
  is_pose_updated : bool;
  path : list Msg.Waypoint;
  is_path_updated : bool;
  traffic_lights : option (list Light);
  subscribers : list topic
}.

(** The fields as [__init__] leaves them before it enters [loop]. *)
Definition Chart__init__ : Chart := {|
  waypoints := [];
  pose := None;
  is_pose_updated := false;
  path := [];
  is_path_updated := false;
  traffic_lights := None;
  subscribers := [base_waypoints]
|}.

Definition with_pose (v : PoseValue) (b : bool) (self : Chart) : Chart := {|
  waypoints := waypoints self;
  pose := v;
  is_pose_updated := b;
  path := path self;
  is_path_updated := is_path_updated self;
  traffic_lights := traffic_lights self;
  subscribers := subscribers self
|}.

Definition with_path (v : list Msg.Waypoint) (b : bool) (self : Chart) : Chart := {|
  waypoints := waypoints self;
  pose := pose self;
  is_pose_updated := is_pose_updated self;
  path := v;
  is_path_updated := b;
  traffic_lights := traffic_lights self;
  subscribers := subscribers self
|}.

Definition with_traffic_lights (v : option (list Light)) (self : Chart) : Chart := {|
  waypoints := waypoints self;
  pose := pose self;
  is_pose_updated := is_pose_updated self;
  path := path self;
  is_path_updated := is_path_updated self;
  traffic_lights := v;
  subscribers := subscribers self
|}.

Definition with_track (v : list Msg.Waypoint) (subs : list topic) (self : Chart) : Chart := {|
  waypoints := v;
  pose := pose self;
  is_pose_updated := is_pose_updated self;
  path := path self;
  is_path_updated := is_path_updated self;
  traffic_lights := traffic_lights self;
  subscribers := subs
|}.

(** ** Accessors used by the render loop *)

Definition get_waypoints (self : Chart) : list Msg.Waypoint := waypoints self.

Definition pose_updated (self : Chart) : bool := is_pose_updated self.

Definition get_pose (self : Chart) : PoseValue * Chart :=
  let result := pose self in
  (result, with_pose (pose self) false self).

Definition get_path (self : Chart) : list Msg.Waypoint * Chart :=
  let path := path self in
  (path, with_path path false self).

Definition path_updated (self : Chart) : bool := is_path_updated self.

Definition get_traffic_lights (self : Chart) : option (list Light) :=
  traffic_lights self.

(** ** Subscriber callbacks *)

(** The assertion is evaluated before the lock is taken; when it fails the
    callback raises and no field has changed.  The debug log line is not
    modelled. *)
Definition waypoints_cb (self : Chart) (msg : Msg.Lane) : result Chart :=
  if Nat.eqb (length (waypoints self)) 0 then
    Ok (with_track (Msg.waypoints msg)
          (subscribers self ++ [current_pose; final_waypoints; vehicle_traffic_lights])
          self)
  else Raise AssertionError.

(** Lines 160-166 alone: what a track callback does once line 159 has let
    it through. *)
Definition waypoints_cb_locked (self : Chart) (msg : Msg.Lane) : Chart :=
  with_track (Msg.waypoints msg)
    (subscribers self ++ [current_pose; final_waypoints; vehicle_traffic_lights])
    self.

Definition pose_cb (self : Chart) (msg : Msg.PoseStamped) : Chart :=
  let x := Msg.x (Msg.pose_position msg) in
  let y := Msg.y (Msg.pose_position msg) in
  with_pose (Some (x, y)) true self.

Definition path_cb (self : Chart) (msg : Msg.Lane) : Chart :=
  with_path (Msg.waypoints msg) true self.

(** The tuple line 187 appends for a light. *)
Definition light_tuple (tl : Msg.TrafficLight) : Light :=
  (Msg.x (Msg.tl_position tl), Msg.y (Msg.tl_position tl), Msg.state tl).

Definition traffic_lights_cb (self : Chart) (msg : Msg.TrafficLightArray) : Chart :=
  let lights := foldl (λ acc tl, acc ++ [light_tuple tl]) [] (Msg.lights msg) in
  with_traffic_lights (Some lights) self.

(** A message together with the callback rospy hands it to. *)
Inductive message :=
| track_msg (msg : Msg.Lane)
| pose_msg (msg : Msg.PoseStamped)
| path_msg (msg : Msg.Lane)
| signal_msg (msg : Msg.TrafficLightArray).

Definition deliver (self : Chart) (m : message) : result Chart :=
  match m with
  | track_msg msg => waypoints_cb self msg
  | pose_msg msg => Ok (pose_cb self msg)
  | path_msg msg => Ok (path_cb self msg)
  | signal_msg msg => Ok (traffic_lights_cb self msg)
  end.

(** Deliveries one after the other; the first callback that raises ends the
    sequence with its exception. *)
Fixpoint deliver_all (self : Chart) (ms : list message) : result Chart :=
  match ms with
  | [] => Ok self
  | m :: ms' => self' ← deliver self m; deliver_all self' ms'
  end.

Definition is_track_msg (m : message) : bool :=
  match m with track_msg _ => true | _ => false end.

Definition is_signal_msg (m : message) : bool :=
  match m with signal_msg _ => true | _ => false end.

(** The consumer's take as the loop performs it on the pose store: the
    check of line 111 and, when it succeeds, the extraction of line 112,
    with nothing in between. *)
Definition take_pose (self : Chart) : option PoseValue * Chart :=
  if pose_updated self then
    let '(v, self') := get_pose self in (Some v, self')
  else (None, self).

Definition take_path (self : Chart) : option (list Msg.Waypoint) * Chart :=
  if path_updated self then
    let '(v, self') := get_path self in (Some v, self')
  else (None, self).

(** ** The matplotlib and rospy calls the loop makes *)

(** The Line2D objects the loop keeps in local variables; the track line is
    plotted once and not kept. *)
Inductive artist := track_line | car_dot | path_line | tl_dots.

Inductive data :=
| scalar (v : float)
| seq (vs : list float).

Inductive call :=
| ax_plot (a : artist) (xs ys : data) (fmt : string) (linewidth : option float)
| set_ydata (a : artist) (d : data)
| set_xdata (a : artist) (d : data)
| set_markerfacecolor (a : artist) (c : string)
| set_markeredgecolor (a : artist) (c : string)
| canvas_draw
| plt_pause (interval : float)
| plt_show
| rate_sleep.

Definition is_canvas_draw (c : call) : bool :=
  match c with canvas_draw => true | _ => false end.

Definition is_plt_pause (c : call) : bool :=
  match c with plt_pause _ => true | _ => false end.

Definition is_rate_sleep (c : call) : bool :=
  match c with rate_sleep => true | _ => false end.

(** A call on a Line2D or on the axes, as opposed to the redraw, the pause
    and the sleep that end a tick. *)
Definition is_artist_call (c : call) : bool :=
  match c with
  | ax_plot _ _ _ _ _ | set_ydata _ _ | set_xdata _ _
  | set_markerfacecolor _ _ | set_markeredgecolor _ _ => true
  | _ => false
  end.

Fixpoint count_calls (p : call → bool) (cs : list call) : nat :=
  match cs with
  | [] => 0
  | c :: cs' => (if p c then 1 else 0) + count_calls p cs'
  end.

(** ** Local variables of [loop] *)

Record Locals := {
  first_iter : bool;
  first_path_iter : bool;
  update_chart : bool;
  first_tl_iter : bool
}.

(** Lines 104-107. *)
Definition init_locals : Locals := {|
  first_iter := true;
  first_path_iter := true;
  update_chart := true;
  first_tl_iter := true
|}.

Definition set_first_iter (b : bool) (l : Locals) : Locals := {|
  first_iter := b;
  first_path_iter := first_path_iter l;
  update_chart := update_chart l;
  first_tl_iter := first_tl_iter l
|}.

Definition set_first_path_iter (b : bool) (l : Locals) : Locals := {|
  first_iter := first_iter l;
  first_path_iter := b;
  update_chart := update_chart l;
  first_tl_iter := first_tl_iter l
|}.

Definition set_update_chart (b : bool) (l : Locals) : Locals := {|
  first_iter := first_iter l;
  first_path_iter := first_path_iter l;
  update_chart := b;
  first_tl_iter := first_tl_iter l
|}.

Definition set_first_tl_iter (b : bool) (l : Locals) : Locals := {|
  first_iter := first_iter l;
  first_path_iter := first_path_iter l;
  update_chart := update_chart l;
  first_tl_iter := b
|}.

(** [tl_marker = ('ro','yo', 'go', 'bo')] *)
Definition tl_marker : list string := ["ro"; "yo"; "go"; "bo"]%string.

(** Indexing a tuple with an unsigned index. *)
Definition tuple_index {A} (t : list A) (i : N) : result A :=
  match t !! N.to_nat i with
  | Some a => Ok a
  | None => Raise IndexError
  end.

(** [s[0]] on a string. *)
Definition str_index0 (s : string) : result string :=
  match s with
  | EmptyString => Raise IndexError
  | String a _ => Ok (String a EmptyString)
  end.

(** The entry of [tl_marker] for a state, and its first character, which is
    the colour [marker.next()[0]] passes on. *)
Definition state_marker (st : N) : string :=
  default EmptyString (tl_marker !! N.to_nat st).

Definition state_colour (st : N) : string :=
  match state_marker st with
  | EmptyString => EmptyString
  | String a _ => String a EmptyString
  end.

(** [itertools.cycle]: the saved elements and how many were handed out. *)
Record cycle := { saved : list string; handed : nat }.

Definition itertools_cycle (l : list string) : cycle :=
  {| saved := l; handed := 0 |}.

Definition cycle_next (it : cycle) : result (string * cycle) :=
  match saved it !! (handed it `mod` length (saved it)) with
  | Some s => Ok (s, {| saved := saved it; handed := S (handed it) |})
  | None => Raise StopIteration
  end.

(** ** The body of the render loop, store by store *)

(** Lines 112-119, given what [get_pose] returned. *)
Definition pose_render (p : PoseValue) (l : Locals) : result (Locals * list call) :=
  match p with
  | None => Raise TypeError
  | Some (x, y) =>
      if first_iter l then
        Ok (set_update_chart true (set_first_iter false l),
            [ax_plot car_dot (scalar x) (scalar y) "ko" None])
      else
        Ok (set_update_chart true l,
            [set_ydata car_dot (scalar y); set_xdata car_dot (scalar x)])
  end.

(** One round of the [for wp in path] loop, lines 125-133: the plotting and
    the assignment to [update_chart] are inside the loop. *)
Definition path_iter (acc : list float * list float * Locals * list call)
    (wp : Msg.Waypoint) : list float * list float * Locals * list call :=
  let '(path_wp_x, path_wp_y, l, out) := acc in
  let path_wp_x := path_wp_x ++ [Msg.x (Msg.position wp)] in
  let path_wp_y := path_wp_y ++ [Msg.y (Msg.position wp)] in
  if first_path_iter l then
    (path_wp_x, path_wp_y, set_update_chart true (set_first_path_iter false l),
     out ++ [ax_plot path_line (seq path_wp_x) (seq path_wp_y) "m" (Some 3%float)])
  else
    (path_wp_x, path_wp_y, set_update_chart true l,
     out ++ [set_ydata path_line (seq path_wp_y); set_xdata path_line (seq path_wp_x)]).

(** Lines 123-133, given what [get_path] returned. *)
Definition path_render (path : list Msg.Waypoint) (l : Locals) : Locals * list call :=
  let '(_, _, l', out) := foldl path_iter ([], [], l, []) path in
  (l', out).

(** One round of the [for tl in tls] loop, lines 139-141. *)
Definition tl_iter (acc : result (list float * list float * list string))
    (tl : Light) : result (list float * list float * list string) :=
  '(tl_x, tl_y, tl_c) ← acc;
  m ← tuple_index tl_marker tl.2;
  Ok (tl_x ++ [tl.1.1], tl_y ++ [tl.1.2], tl_c ++ [m]).

(** Lines 137-150, given what [get_traffic_lights] returned.  Iterating over
    [None] is a TypeError. *)
Definition tl_render (tls : option (list Light)) (l : Locals) : result (Locals * list call) :=
  match tls with
  | None => Raise TypeError
  | Some tls =>
      '(tl_x, tl_y, tl_c) ← foldl tl_iter (Ok ([], [], [])) tls;
      let marker := itertools_cycle tl_c in
      if first_tl_iter l then
        '(m, marker) ← cycle_next marker;
        Ok (set_update_chart true (set_first_tl_iter false l),
            [ax_plot tl_dots (seq tl_x) (seq tl_y) m None])
      else
        '(m1, marker) ← cycle_next marker;
        face ← str_index0 m1;
        '(m2, marker) ← cycle_next marker;
        edge ← str_index0 m2;
        Ok (set_update_chart true l,
            [set_markerfacecolor tl_dots face; set_markeredgecolor tl_dots edge])
  end.

(** The float64 nearest to the literal 0.001 of line 154. *)
Definition pause_interval : float := 0x1.0624dd2f1a9fcp-10%float.

(** Lines 152-156. *)
Definition redraw (l : Locals) : Locals * list call :=
  if update_chart l then
    (set_update_chart false l, [canvas_draw; plt_pause pause_interval; rate_sleep])
  else (l, [rate_sleep]).

(** The extraction steps with their rendering. *)
Definition pose_get_step (self : Chart) (l : Locals) : result (Chart * Locals * list call) :=
  let '(p, self') := get_pose self in
  '(l', out) ← pose_render p l;
  Ok (self', l', out).

Definition path_get_step (self : Chart) (l : Locals) : Chart * Locals * list call :=
  let '(path, self') := get_path self in
  let '(l', out) := path_render path l in
  (self', l', out).

Definition tl_get_step (self : Chart) (l : Locals) : result (Locals * list call) :=
  tl_render (get_traffic_lights self) l.

(** ** One pass through the loop body with no callback in between *)

(** Lines 111-119. *)
Definition pose_phase (self : Chart) (l : Locals) : result (Chart * Locals * list call) :=
  if pose_updated self then pose_get_step self l else Ok (self, l, []).

(** Lines 121-133. *)
Definition path_phase (self : Chart) (l : Locals) : Chart * Locals * list call :=
  if path_updated self then path_get_step self l else (self, l, []).

(** Lines 135-150.  The test of line 135 reads the field without the lock. *)
Definition tl_phase (self : Chart) (l : Locals) : result (Locals * list call) :=
  if traffic_lights self is Some _ then tl_get_step self l else Ok (l, []).

(** Lines 110-150: the three store updates.  The [update_chart] of the
    locals it returns is the value line 152 tests. *)
Definition tick_updates (self : Chart) (l : Locals) : result (Chart * Locals * list call) :=
  '(self, l, out1) ← pose_phase self l;
  let '(self, l, out2) := path_phase self l in
  '(l, out3) ← tl_phase self l;
  Ok (self, l, out1 ++ out2 ++ out3).

(** The value of [update_chart] that the tick tests at line 152. *)
Definition changed (self : Chart) (l : Locals) : result bool :=
  '(_, l', _) ← tick_updates self l; Ok (update_chart l').

(** Lines 110-156. *)
Definition tick (self : Chart) (l : Locals) : result (Chart * Locals * list call) :=
  '(self, l, out) ← tick_updates self l;
  let '(l, out') := redraw l in
  Ok (self, l, out ++ out').

(** Ticks with callbacks between them.  A callback that raises is logged by
    rospy in its own thread and changes no field. *)
Inductive tick_event := arrives (m : message) | ticks.

Definition deliver_quiet (self : Chart) (m : message) : Chart :=
  match deliver self m with Ok self' => self' | Raise _ => self end.

(** The calls of each tick, tick by tick. *)
Fixpoint render_loop (self : Chart) (l : Locals) (es : list tick_event)
    : result (Chart * Locals * list (list call)) :=
  match es with
  | [] => Ok (self, l, [])
  | arrives m :: es' => render_loop (deliver_quiet self m) l es'
  | ticks :: es' =>
      '(self, l, out) ← tick self l;
      '(self, l, outs) ← render_loop self l es';
      Ok (self, l, out :: outs)
  end.

Definition is_arrival_of (p : message → bool) (e : tick_event) : bool :=
  match e with arrives m => p m | ticks => false end.

Fixpoint count_ticks (es : list tick_event) : nat :=
  match es with
  | [] => 0
  | ticks :: es' => S (count_ticks es')
  | arrives _ :: es' => count_ticks es'
  end.

(** ** The node as interleaved atomic steps *)

(** Where the loop thread stands: before the step named. *)
Inductive pc :=
| AtAwaitTrack   (* line 91, the wait for the track *)
| AtLoopHead     (* line 109 *)
| AtPoseCheck    (* line 111 *)
| AtPoseGet      (* line 112 *)
| AtPathCheck    (* line 121 *)
| AtPathGet      (* line 122 *)
| AtTlCheck      (* line 135 *)
| AtTlGet        (* line 136 *)
| AtRedraw       (* line 152 *)
| Exited.

#[global] Instance pc_eq_dec : EqDecision pc.
Proof. solve_decision. Defined.

Record sys := {
  chart : Chart;
  locals : Locals;
  at_pc : pc;
  is_shutdown : bool
}.

Definition sys_at (s : sys) (self : Chart) (l : Locals) (p : pc) : sys :=
  {| chart := self; locals := l; at_pc := p; is_shutdown := is_shutdown s |}.

(** The node when [__init__] calls [loop]. *)
Definition boot : sys :=
  {| chart := Chart__init__; locals := init_locals; at_pc := AtAwaitTrack;
     is_shutdown := false |}.

(** Lines 96-101: the first drawing of the track. *)
Definition draw_track (waypoints : list Msg.Waypoint) : list call :=
  let w_x := foldl (λ acc wp, acc ++ [Msg.x (Msg.position wp)]) [] waypoints in
  let w_y := foldl (λ acc wp, acc ++ [Msg.y (Msg.position wp)]) [] waypoints in
  [ax_plot track_line (seq w_x) (seq w_y) "b" None; plt_show].

(** One atomic step of the loop thread. *)
Definition loop_step (s : sys) : result (sys * list call) :=
  let self := chart s in
  let l := locals s in
  match at_pc s with
  | AtAwaitTrack =>
      if is_shutdown s then Ok (sys_at s self init_locals AtLoopHead, draw_track [])
      else
        let waypoints := get_waypoints self in
        if Nat.eqb (length waypoints) 0 then Ok (s, [rate_sleep])
        else Ok (sys_at s self init_locals AtLoopHead, rate_sleep :: draw_track waypoints)
  | AtLoopHead =>
      if is_shutdown s then Ok (sys_at s self l Exited, [])
      else Ok (sys_at s self l AtPoseCheck, [])
  | AtPoseCheck =>
      if pose_updated self then Ok (sys_at s self l AtPoseGet, [])
      else Ok (sys_at s self l AtPathCheck, [])
  | AtPoseGet =>
      '(self', l', out) ← pose_get_step self l;
      Ok (sys_at s self' l' AtPathCheck, out)
  | AtPathCheck =>
      if path_updated self then Ok (sys_at s self l AtPathGet, [])
      else Ok (sys_at s self l AtTlCheck, [])
  | AtPathGet =>
      let '(self', l', out) := path_get_step self l in
      Ok (sys_at s self' l' AtTlCheck, out)
  | AtTlCheck =>
      if traffic_lights self is Some _ then Ok (sys_at s self l AtTlGet, [])
      else Ok (sys_at s self l AtRedraw, [])
  | AtTlGet =>
      '(l', out) ← tl_get_step self l;
      Ok (sys_at s self l' AtRedraw, out)
  | AtRedraw =>
      let '(l', out) := redraw l in
      Ok (sys_at s self l' AtLoopHead, out)
  | Exited => Ok (s, [])
  end.

(** What can happen next in the node.  [callback m] is a callback run from
    its first line to its last with nothing in between.  [store_track msg]
    is the locked part, lines 160-166, of a track callback that evaluated
    its assertion earlier, while no track was stored, and was overtaken
    before it took the lock; the node starts without a track, so such a
    callback can be on its way at any later moment, whatever has been stored
    since. *)
Inductive event :=
| callback (m : message)
| step
| shutdown
| store_track (msg : Msg.Lane).

Definition sys_step (s : sys) (e : event) : result (sys * list call) :=
  match e with
  | callback m =>
      Ok ({| chart := deliver_quiet (chart s) m; locals := locals s;
             at_pc := at_pc s; is_shutdown := is_shutdown s |}, [])
  | step => loop_step s
  | shutdown =>
      Ok ({| chart := chart s; locals := locals s; at_pc := at_pc s;
             is_shutdown := true |}, [])
  | store_track msg =>
      Ok ({| chart := waypoints_cb_locked (chart s) msg; locals := locals s;
             at_pc := at_pc s; is_shutdown := is_shutdown s |}, [])
  end.

(** A schedule run from [s]; an exception in the loop thread ends the run. *)
Fixpoint run (s : sys) (es : list event) : result (sys * list call) :=
  match es with
  | [] => Ok (s, [])
  | e :: es' =>
      '(s', out) ← sys_step s e;
      '(s'', out') ← run s' es';
      Ok (s'', out ++ out')
  end.

(** The node with the loop thread before the step [p]. *)
Definition at_line (self : Chart) (l : Locals) (p : pc) (sh : bool) : sys :=
  {| chart := self; locals := l; at_pc := p; is_shutdown := sh |}.

(** The steps a tick takes from line 111 back to line 109. *)
Definition tick_steps (self : Chart) : nat :=
  4 + (if pose_updated self then 1 else 0)
    + (if path_updated self then 1 else 0)
    + (if traffic_lights self is Some _ then 1 else 0).

(** The poses [pose_cb] writes along a schedule, in write order. *)
Fixpoint pose_writes (es : list event) : list (float * float) :=
  match es with
  | [] => []
  | callback (pose_msg msg) :: es' =>
      (Msg.x (Msg.pose_position msg), Msg.y (Msg.pose_position msg)) :: pose_writes es'
  | _ :: es' => pose_writes es'
  end.

(** What the [get_pose] of the step taken from [s] returns, if that step
    calls it. *)
Definition pose_taken (s : sys) : option PoseValue :=
  match at_pc s with
  | AtPoseGet => Some (fst (get_pose (chart s)))
  | _ => None
  end.

(** The consumer's log along a schedule run from [s] after [nw] writes:
    for each [get_pose] the loop performs, the number of writes that came
    before it and the value it returned. *)
Fixpoint pose_log (s : sys) (nw : nat) (es : list event) : list (nat * PoseValue) :=
  match es with
  | [] => []
  | e :: es' =>
      let nw' := match e with callback (pose_msg _) => S nw | _ => nw end in
      let here := match e, pose_taken s with
                  | step, Some v => [(nw, v)]
                  | _, _ => []
                  end in
      match sys_step s e with
      | Ok (s', _) => here ++ pose_log s' nw' es'
      | Raise _ => []
      end
  end.

(** ** The take as one critical section *)

(** The take, following the description of [try_take_if_dirty]: under the
    lock, nothing if the store is not dirty; otherwise a copy of the value,
    with the flag cleared before the lock is released. *)
Definition try_take_if_dirty (self : Chart) : option PoseValue * Chart :=
  if is_pose_updated self then (Some (pose self), with_pose (pose self) false self)
  else (None, self).

(** The loop thread with lines 111-112 as one step on [try_take_if_dirty];
    every other step is the node's own. *)
Definition loop_step_atomic (s : sys) : result (sys * list call) :=
  match at_pc s with
  | AtPoseCheck =>
      match try_take_if_dirty (chart s) with
      | (Some p, self') =>
          '(l', out) ← pose_render p (locals s);
          Ok (sys_at s self' l' AtPathCheck, out)
      | (None, self') => Ok (sys_at s self' (locals s) AtPathCheck, [])
      end
  | _ => loop_step s
  end.

Definition sys_step_atomic (s : sys) (e : event) : result (sys * list call) :=
  match e with
  | step => loop_step_atomic s
  | _ => sys_step s e
  end.

Fixpoint run_atomic (s : sys) (es : list event) : result (sys * list call) :=
  match es with
  | [] => Ok (s, [])
  | e :: es' =>
      '(s', out) ← sys_step_atomic s e;
      '(s'', out') ← run_atomic s' es';
      Ok (s'', out ++ out')
  end.

(** Whether an event of the node is also an event of the one-step take: all
    but the check that finds the store dirty, which only moves the loop
    thread to the extraction. *)
Definition kept (s : sys) (e : event) : bool :=
  match e, at_pc s with
  | step, AtPoseCheck => negb (pose_updated (chart s))
  | _, _ => true
  end.

(** The schedule of the one-step take that matches a schedule of the node:
    the dirty check is dropped and the extraction becomes the take. *)
Fixpoint linearize (s : sys) (es : list event) : list event :=
  match es with
  | [] => []
  | e :: es' =>
      match sys_step s e with
      | Ok (s', _) => (if kept s e then [e] else []) ++ linearize s' es'
      | Raise _ => es
      end
  end.

(** The loop thread seen between takes: one that stands before the
    extraction has, for the one-step take, not begun. *)
Definition before_take (s : sys) : sys :=
  match at_pc s with
  | AtPoseGet => sys_at s (chart s) (locals s) AtPoseCheck
  | _ => s
  end.

(** ** Sample data *)

Definition wp_at (x y : float) : Msg.Waypoint :=
  {| Msg.position := {| Msg.x := x; Msg.y := y |} |}.

Definition pose_at (x y : float) : Msg.PoseStamped :=
  {| Msg.pose_position := {| Msg.x := x; Msg.y := y |} |}.

Definition light_at (x y : float) (st : N) : Msg.TrafficLight :=
  {| Msg.tl_position := {| Msg.x := x; Msg.y := y |}; Msg.state := st |}.

Definition track3 : Msg.Lane :=
  {| Msg.waypoints := [wp_at 0 0; wp_at 1 1; wp_at 2 2] |}.

Definition empty_lane : Msg.Lane := {| Msg.waypoints := [] |}.

(** The fields once [track3] has been delivered to a fresh node. *)
Definition ready_chart : Chart := deliver_quiet Chart__init__ (track_msg track3).

Definition lights_at (ls : list Msg.TrafficLight) : Msg.TrafficLightArray :=
  {| Msg.lights := ls |}.

(** The fields a render tick leaves alone when nothing is pending: no pose
    or path update and no traffic lights. *)
Definition nothing_pending (self : Chart) : Prop :=
  is_pose_updated self = false ∧ is_path_updated self = false
  ∧ traffic_lights self = None.

(** A pending pose update has a pose to go with it. *)
Definition pose_consistent (self : Chart) : Prop :=
  is_pose_updated self = true → pose self ≠ None.

(** What a tick shows of the lights [tl0 :: rest]: on the first tick that
    finds lights, the plot; afterwards the two colour calls. *)
Definition lights_shown (tl0 : Light) (rest : list Light) (first : bool)
    (out : list call) : Prop :=
  let tls := tl0 :: rest in
  let tl1 := default tl0 (head rest) in
  if first then
    ax_plot tl_dots (seq (tls.*1.*1)) (seq (tls.*1.*2)) (state_marker tl0.2) None ∈ out
  else
    set_markerfacecolor tl_dots (state_colour tl0.2) ∈ out
    ∧ set_markeredgecolor tl_dots (state_colour tl1.2) ∈ out.

(** The pose store along a schedule, after the writes [pre] and with the
    last extraction made when [lastk] writes had happened: it holds the last
    write; a raised flag means a write came after that extraction; and the
    loop thread stands before the extraction only with the flag raised. *)
Definition pose_store_inv (s : sys) (pre : list (float * float)) (lastk : nat) : Prop :=
  pose (chart s) = last pre
  ∧ lastk ≤ length pre
  ∧ (is_pose_updated (chart s) = true → lastk < length pre)
  ∧ (at_pc s = AtPoseGet → is_pose_updated (chart s) = true).

(** ** Notions for the properties of the whole node *)

Definition topic_of (m : message) : topic :=
  match m with
  | track_msg _ => base_waypoints
  | pose_msg _ => current_pose
  | path_msg _ => final_waypoints
  | signal_msg _ => vehicle_traffic_lights
  end.

#[global] Instance topic_eq_dec : EqDecision topic.
Proof. solve_decision. Defined.

(** Lights a tick can show: at least one, each state an index into
    [tl_marker]. *)
Definition lights_ok (self : Chart) : Prop :=
  ∀ tls, traffic_lights self = Some tls →
         tls ≠ [] ∧ Forall (λ tl : Light, (tl.2 < 4)%N) tls.

(** The fields with both update flags cleared and nothing else touched. *)
Definition drained (self : Chart) : Chart :=
  with_path (path self) false (with_pose (pose self) false self).

(** An event of a schedule in which every track callback runs from its
    assertion to its end without another step of the node in between. *)
Definition whole (e : event) : bool :=
  match e with store_track _ => false | _ => true end.

Fixpoint count_steps (es : list event) : nat :=
  match es with
  | [] => 0
  | step :: es' => S (count_steps es')
  | _ :: es' => count_steps es'
  end.


#[global] Instance artist_eq_dec : EqDecision artist.
Proof. solve_decision. Defined.

(** The x and y data a Line2D holds after the calls [cs], starting from
    [cur]: a plot creates it with both, [set_xdata] and [set_ydata] replace
    one of them. *)
Definition line_step (a : artist) (cur : option data * option data) (c : call)
    : option data * option data :=
  match c with
  | ax_plot b xs ys _ _ => if decide (a = b) then (Some xs, Some ys) else cur
  | set_xdata b d => if decide (a = b) then (Some d, cur.2) else cur
  | set_ydata b d => if decide (a = b) then (cur.1, Some d) else cur
  | _ => cur
  end.

Definition line_data (a : artist) (cur : option data * option data) (cs : list call)
    : option data * option data :=
  foldl (line_step a) cur cs.


(** What a tick shows of a pose: on the first pose tick the plot of the car
    dot, afterwards its two data calls. *)
Definition pose_shown (x y : float) (first : bool) (out : list call) : Prop :=
  if first then ax_plot car_dot (scalar x) (scalar y) "ko" None ∈ out
  else set_ydata car_dot (scalar y) ∈ out ∧ set_xdata car_dot (scalar x) ∈ out.


(** An event that leaves the loop waiting for the track: a loop step, or a
    callback other than a track message with waypoints; not the shutdown. *)
Definition keeps_waiting (e : event) : bool :=
  match e with
  | callback (track_msg msg) => Nat.eqb (length (Msg.waypoints msg)) 0
  | callback _ => true
  | step => true
  | shutdown => false
  | store_track msg => Nat.eqb (length (Msg.waypoints msg)) 0
  end.

(** How many steps the loop thread is away from leaving [loop] once the
    shutdown is requested, at most. *)
Definition steps_to_exit (p : pc) : nat :=
  match p with
  | Exited => 0
  | AtLoopHead => 1
  | AtRedraw => 2
  | AtTlGet => 3
  | AtTlCheck => 4
  | AtPathGet => 5
  | AtPathCheck => 6
  | AtPoseGet => 7
  | AtPoseCheck => 8
  | AtAwaitTrack => 2
  end.


(** What holds of the node wherever its threads stand: a pending pose flag
    has a pose behind it, and the loop thread stands before an extraction
    only after the check that leads there has succeeded. *)
Definition node_inv (s : sys) : Prop :=
  pose_consistent (chart s)
  ∧ (at_pc s = AtPoseGet → is_pose_updated (chart s) = true)
  ∧ (at_pc s = AtTlGet → traffic_lights (chart s) ≠ None).

(** An event whose signal message, if it is one, carries at least one light
    and only states that index [tl_marker]. *)
Definition showable (e : event) : bool :=
  match e with
  | callback (signal_msg msg) =>
      negb (Nat.eqb (length (Msg.lights msg)) 0)
      && forallb (λ tl, N.ltb (Msg.state tl) 4) (Msg.lights msg)
  | _ => true
  end.


(** Which Line2D objects exist: the track line and the three the loop keeps
    in [car_dot], [path_line] and [tl_dots]. *)
Record made := {
  has_track : bool;
  has_car : bool;
  has_path : bool;
  has_tl : bool
}.

Definition no_lines : made :=
  {| has_track := false; has_car := false; has_path := false; has_tl := false |}.

Definition has (m : made) (a : artist) : bool :=
  match a with
  | track_line => has_track m
  | car_dot => has_car m
  | path_line => has_path m
  | tl_dots => has_tl m
  end.

Definition make (a : artist) (m : made) : made :=
  match a with
  | track_line =>
      {| has_track := true; has_car := has_car m; has_path := has_path m; has_tl := has_tl m |}
  | car_dot =>
      {| has_track := has_track m; has_car := true; has_path := has_path m; has_tl := has_tl m |}
  | path_line =>
      {| has_track := has_track m; has_car := has_car m; has_path := true; has_tl := has_tl m |}
  | tl_dots =>
      {| has_track := has_track m; has_car := has_car m; has_path := has_path m; has_tl := true |}
  end.

(** A call checked against the lines that exist: a plot must create a line
    that does not exist yet, and a call on a line needs the line, as the
    name it is called through is bound by the plot only. *)
Definition replay_call (m : made) (c : call) : option made :=
  match c with
  | ax_plot a _ _ _ _ => if has m a then None else Some (make a m)
  | set_ydata a _ | set_xdata a _
  | set_markerfacecolor a _ | set_markeredgecolor a _ => if has m a then Some m else None
  | _ => Some m
  end.

Fixpoint replay (m : made) (cs : list call) : option made :=
  match cs with
  | [] => Some m
  | c :: cs' => m' ← replay_call m c; replay m' cs'
  end.

(** The lines the first-time flags of the loop stand for. *)
Definition made_in (l : Locals) : made :=
  {| has_track := true;
     has_car := negb (first_iter l);
     has_path := negb (first_path_iter l);
     has_tl := negb (first_tl_iter l) |}.

Definition made_of (s : sys) : made :=
  match at_pc s with
  | AtAwaitTrack => no_lines
  | _ => made_in (locals s)
  end.


(** The paths [path_cb] writes along a schedule, in write order. *)
Fixpoint path_writes (es : list event) : list (list Msg.Waypoint) :=
  match es with
  | [] => []
  | callback (path_msg msg) :: es' => Msg.waypoints msg :: path_writes es'
  | _ :: es' => path_writes es'
  end.

(** What the [get_path] of the step taken from [s] returns, if that step
    calls it. *)
Definition path_taken (s : sys) : option (list Msg.Waypoint) :=
  match at_pc s with
  | AtPathGet => Some (fst (get_path (chart s)))
  | _ => None
  end.

(** The loop's log of the path store along a schedule run from [s] after
    [nw] writes: for each [get_path], the number of writes that came before
    it and the path it returned. *)
Fixpoint path_log (s : sys) (nw : nat) (es : list event)
    : list (nat * list Msg.Waypoint) :=
  match es with
  | [] => []
  | e :: es' =>
      let nw' := match e with callback (path_msg _) => S nw | _ => nw end in
      let here := match e, path_taken s with
                  | step, Some v => [(nw, v)]
                  | _, _ => []
                  end in
      match sys_step s e with
      | Ok (s', _) => here ++ path_log s' nw' es'
      | Raise _ => []
      end
  end.

(** The path store along a schedule, after the writes [pre] and with the
    last extraction made when [lastk] writes had happened. *)
Definition path_store_inv (s : sys) (pre : list (list Msg.Waypoint)) (lastk : nat) : Prop :=
  path (chart s) = default [] (last pre)
  ∧ lastk ≤ length pre
  ∧ (is_path_updated (chart s) = true → lastk < length pre)
  ∧ (at_pc s = AtPathGet → is_path_updated (chart s) = true).


(** The snapshots [traffic_lights_cb] writes along a schedule. *)
Fixpoint signal_writes (es : list event) : list (list Light) :=
  match es with
  | [] => []
  | callback (signal_msg msg) :: es' => (light_tuple <$> Msg.lights msg) :: signal_writes es'
  | _ :: es' => signal_writes es'
  end.

(** The waypoints of the first track message of a schedule that has any. *)
Fixpoint first_track (es : list event) : list Msg.Waypoint :=
  match es with
  | [] => []
  | callback (track_msg msg) :: es' =>
      if Nat.eqb (length (Msg.waypoints msg)) 0 then first_track es' else Msg.waypoints msg
  | _ :: es' => first_track es'
  end.

(** The track messages of a schedule that pass the assertion of
    [waypoints_cb] on a node with no track: those without waypoints that
    come first, and the first with waypoints. *)
Fixpoint accepted_tracks (es : list event) : nat :=
  match es with
  | [] => 0
  | callback (track_msg msg) :: es' =>
      if Nat.eqb (length (Msg.waypoints msg)) 0 then S (accepted_tracks es') else 1
  | _ :: es' => accepted_tracks es'
  end.


(** The subscriptions [waypoints_cb] makes, lines 164-166. *)
Definition update_topics : list topic :=
  [current_pose; final_waypoints; vehicle_traffic_lights].

(** * Properties *)

(** ** The stores *)

Lemma with_pose_same (self : Chart) :
  is_pose_updated self = false → with_pose (pose self) false self = self.
Proof. destruct self as [w p b q c t s]; simpl; intros ->; reflexivity. Qed.

Lemma with_path_same (self : Chart) :
  is_path_updated self = false → with_path (path self) false self = self.
Proof. destruct self as [w p b q c t s]; simpl; intros ->; reflexivity. Qed.

(** C8.  After one write the check succeeds and the extraction returns the
    written value; the check that follows reports nothing pending, so a take
    repeated with no write in between yields the value and then nothing.
    The same holds for the path store. *)
Theorem take_twice_without_write (self : Chart) (msg : Msg.PoseStamped) (lane : Msg.Lane) :
  let written := pose_cb self msg in
  let value := (Msg.x (Msg.pose_position msg), Msg.y (Msg.pose_position msg)) in
  pose_updated written = true
  ∧ fst (get_pose written) = Some value
  ∧ pose_updated (snd (get_pose written)) = false
  ∧ fst (take_pose written) = Some (Some value)
  ∧ fst (take_pose (snd (take_pose written))) = None
  ∧ fst (take_path (path_cb self lane)) = Some (Msg.waypoints lane)
  ∧ fst (take_path (snd (take_path (path_cb self lane)))) = None.
Proof. repeat split. Qed.

(** C10.  With the flag already false, [get_pose] and [get_path] return the
    stored value, whatever it is, and leave the node as it was: the flag
    stays false and nothing is raised. *)
Theorem get_when_not_updated (self : Chart) :
  (is_pose_updated self = false → get_pose self = (pose self, self))
  ∧ (is_path_updated self = false → get_path self = (path self, self)).
Proof.
  split; intros H; unfold get_pose, get_path.
  - by rewrite with_pose_same.
  - by rewrite with_path_same.
Qed.

Lemma get_when_not_updated_witness :
  get_pose Chart__init__ = (None, Chart__init__)
  ∧ get_path Chart__init__ = ([], Chart__init__).
Proof.
  destruct (get_when_not_updated Chart__init__) as [Hpose Hpath].
  split; [apply Hpose | apply Hpath]; reflexivity.
Defined.

(** The stale value: a second extraction returns the last written pose. *)
Example get_pose_stale :
  let after := snd (get_pose (pose_cb ready_chart (pose_at 0.5 0.5))) in
  get_pose after = (Some (0.5%float, 0.5%float), after).
Proof. reflexivity. Qed.

(** ** The track is delivered once *)

Lemma deliver_updates_ok (self : Chart) (ms : list message) :
  forallb (λ m, negb (is_track_msg m)) ms = true →
  ∃ self', deliver_all self ms = Ok self' ∧ waypoints self' = waypoints self.
Proof.
  revert self. induction ms as [|m ms IH]; intros self Hms; simpl in *.
  - eauto.
  - apply andb_prop in Hms as [Hm Hms]. apply negb_true_iff in Hm.
    destruct m; try discriminate; cbn;
      match goal with
      | |- ∃ _, deliver_all ?c ms = _ ∧ _ =>
          destruct (IH c Hms) as (self' & Hr & Hw); exists self'; split;
          [exact Hr | rewrite Hw; reflexivity]
      end.
Qed.

Lemma deliver_all_app (self : Chart) (ms1 ms2 : list message) :
  deliver_all self (ms1 ++ ms2) = self' ← deliver_all self ms1; deliver_all self' ms2.
Proof.
  revert self. induction ms1 as [|m ms1 IH]; intros self; simpl; [reflexivity|].
  destruct (deliver self m); simpl; [apply IH | reflexivity].
Qed.

Lemma waypoints_cb_again (self : Chart) (msg : Msg.Lane) :
  waypoints self ≠ [] → waypoints_cb self msg = Raise AssertionError.
Proof. unfold waypoints_cb. destruct (waypoints self); [congruence | reflexivity]. Qed.

(** C3, as the code has it.  A track followed by any pose, path and signal
    deliveries goes through; a further track delivery raises AssertionError
    whenever the track delivered first was not empty. *)
Theorem track_delivered_once (first again : Msg.Lane) (ms : list message) :
  forallb (λ m, negb (is_track_msg m)) ms = true →
  (∃ self, deliver_all Chart__init__ (track_msg first :: ms) = Ok self
           ∧ waypoints self = Msg.waypoints first)
  ∧ (Msg.waypoints first ≠ [] →
     deliver_all Chart__init__ (track_msg first :: ms ++ [track_msg again])
     = Raise AssertionError).
Proof.
  intros Hms. split.
  - simpl. destruct (deliver_updates_ok
      (with_track (Msg.waypoints first)
         (subscribers Chart__init__ ++ [current_pose; final_waypoints; vehicle_traffic_lights])
         Chart__init__) ms Hms) as (self & Hrun & Hw).
    exists self. split; [exact Hrun | exact Hw].
  - intros Hne. change (track_msg first :: ms ++ [track_msg again])
      with ((track_msg first :: ms) ++ [track_msg again]).
    rewrite deliver_all_app. simpl.
    destruct (deliver_updates_ok
      (with_track (Msg.waypoints first)
         (subscribers Chart__init__ ++ [current_pose; final_waypoints; vehicle_traffic_lights])
         Chart__init__) ms Hms) as (self & Hrun & Hw).
    simpl in Hrun. rewrite Hrun. simpl.
    rewrite waypoints_cb_again; [reflexivity|]. by rewrite Hw.
Qed.

Lemma track_delivered_once_witness :
  (∃ self, deliver_all Chart__init__
             [track_msg track3; pose_msg (pose_at 0.5 0.5); path_msg track3] = Ok self
           ∧ waypoints self = Msg.waypoints track3)
  ∧ deliver_all Chart__init__
      [track_msg track3; pose_msg (pose_at 0.5 0.5); path_msg track3; track_msg track3]
    = Raise AssertionError.
Proof.
  destruct (track_delivered_once track3 track3
              [pose_msg (pose_at 0.5 0.5); path_msg track3] eq_refl) as [Hok Hagain].
  split; [exact Hok | apply Hagain; discriminate].
Defined.

(** C3 as stated fails when the first track message carries no waypoint:
    the second delivery passes the assertion and replaces the track. *)
Lemma second_track_after_empty_accepted :
  ∃ self, deliver_all Chart__init__ [track_msg empty_lane; track_msg track3] = Ok self
          ∧ waypoints self = Msg.waypoints track3.
Proof. eexists; split; reflexivity. Qed.

(** ** What a tick calls *)

Lemma count_calls_app (p : call → bool) (cs1 cs2 : list call) :
  count_calls p (cs1 ++ cs2) = count_calls p cs1 + count_calls p cs2.
Proof. induction cs1 as [|c cs1 IH]; simpl; [reflexivity | rewrite IH; lia]. Qed.

Lemma count_calls_artist (p : call → bool) (cs : list call) :
  (∀ c, is_artist_call c = true → p c = false) →
  Forall (λ c, is_artist_call c = true) cs → count_calls p cs = 0.
Proof.
  intros Hp. induction 1 as [|c cs Hc _ IH]; simpl; [reflexivity|].
  by rewrite (Hp c Hc), IH.
Qed.

Lemma pose_render_artist (p : PoseValue) (l l' : Locals) (out : list call) :
  pose_render p l = Ok (l', out) → Forall (λ c, is_artist_call c = true) out.
Proof.
  unfold pose_render. destruct p as [[x y]|]; [|discriminate].
  destruct (first_iter l); intros [= <- <-]; repeat constructor.
Qed.

Lemma path_iter_artist (path : list Msg.Waypoint) (acc : list float * list float * Locals * list call) :
  Forall (λ c, is_artist_call c = true) acc.2 →
  Forall (λ c, is_artist_call c = true) (foldl path_iter acc path).2.
Proof.
  revert acc. induction path as [|wp path IH]; intros acc Hacc; simpl; [exact Hacc|].
  apply IH. destruct acc as [[[xs ys] l] out]. simpl in *.
  destruct (first_path_iter l); simpl; apply Forall_app; split; auto; repeat constructor.
Qed.

Lemma path_render_artist (path : list Msg.Waypoint) (l : Locals) :
  Forall (λ c, is_artist_call c = true) (path_render path l).2.
Proof.
  unfold path_render.
  pose proof (path_iter_artist path ([], [], l, []) (Forall_nil_2 _)) as H.
  destruct (foldl path_iter ([], [], l, []) path) as [[[xs ys] l'] out]. exact H.
Qed.

Lemma tl_render_artist (tls : option (list Light)) (l l' : Locals) (out : list call) :
  tl_render tls l = Ok (l', out) → Forall (λ c, is_artist_call c = true) out.
Proof.
  unfold tl_render. destruct tls as [tls|]; [|discriminate].
  destruct (foldl tl_iter (Ok ([], [], [])) tls) as [[[tl_x tl_y] tl_c]|]; [|discriminate].
  cbn. destruct (first_tl_iter l).
  - destruct (cycle_next (itertools_cycle tl_c)) as [[m it]|]; [|discriminate].
    cbn. intros [= <- <-]. repeat constructor.
  - destruct (cycle_next (itertools_cycle tl_c)) as [[m1 it]|]; [|discriminate].
    cbn. destruct (str_index0 m1); [|discriminate].
    cbn. destruct (cycle_next it) as [[m2 it']|]; [|discriminate].
    cbn. destruct (str_index0 m2); [|discriminate].
    cbn. intros [= <- <-]. repeat constructor.
Qed.

Lemma tick_updates_inv (self self' : Chart) (l l' : Locals) (out : list call) :
  tick_updates self l = Ok (self', l', out) →
  ∃ self1 l1 out1 l2 out2 out3,
    pose_phase self l = Ok (self1, l1, out1)
    ∧ path_phase self1 l1 = (self', l2, out2)
    ∧ tl_phase self' l2 = Ok (l', out3)
    ∧ out = out1 ++ out2 ++ out3.
Proof.
  unfold tick_updates. intros H.
  destruct (pose_phase self l) as [[[self1 l1] out1]|]; [|discriminate]. cbn in H.
  destruct (path_phase self1 l1) as [[self2 l2] out2] eqn:E2.
  destruct (tl_phase self2 l2) as [[l3 out3]|] eqn:E3; [|discriminate]. cbn in H.
  injection H as <- <- <-. exists self1, l1, out1, l2, out2, out3. repeat split; assumption.
Qed.

Lemma pose_phase_artist (self self' : Chart) (l l' : Locals) (out : list call) :
  pose_phase self l = Ok (self', l', out) → Forall (λ c, is_artist_call c = true) out.
Proof.
  unfold pose_phase, pose_get_step, get_pose. destruct (pose_updated self).
  - destruct (pose_render (pose self) l) as [[l1 o1]|] eqn:E; [|discriminate].
    cbn. intros [= <- <- <-]. by eapply pose_render_artist.
  - intros [= <- <- <-]. constructor.
Qed.

Lemma path_phase_artist (self : Chart) (l : Locals) :
  Forall (λ c, is_artist_call c = true) (path_phase self l).2.
Proof.
  unfold path_phase, path_get_step, get_path. destruct (path_updated self).
  - pose proof (path_render_artist (path self) l) as H.
    by destruct (path_render (path self) l).
  - constructor.
Qed.

Lemma tl_phase_artist (self : Chart) (l l' : Locals) (out : list call) :
  tl_phase self l = Ok (l', out) → Forall (λ c, is_artist_call c = true) out.
Proof.
  unfold tl_phase, tl_get_step. destruct (traffic_lights self) eqn:E.
  - unfold get_traffic_lights. rewrite E. apply tl_render_artist.
  - intros [= <- <-]. constructor.
Qed.

Lemma tick_updates_artist (self self' : Chart) (l l' : Locals) (out : list call) :
  tick_updates self l = Ok (self', l', out) → Forall (λ c, is_artist_call c = true) out.
Proof.
  intros (self1 & l1 & out1 & l2 & out2 & out3 & H1 & H2 & H3 & ->)%tick_updates_inv.
  apply pose_phase_artist in H1. apply tl_phase_artist in H3.
  pose proof (path_phase_artist self1 l1) as H2'. rewrite H2 in H2'.
  repeat (apply Forall_app; split); assumption.
Qed.

(** C5, as the code has it.  In a tick the canvas is redrawn exactly when
    [update_chart] is true at line 152, and [plt.pause], the yield to the
    user interface, is called with the redraw and only then; what every tick
    calls once, changed or not, is [rate.sleep]. *)
Theorem redraw_and_pause_when_changed (self self' : Chart) (l l' : Locals) (out : list call) :
  tick self l = Ok (self', l', out) →
  ∃ ch, changed self l = Ok ch
        ∧ count_calls is_canvas_draw out = (if ch then 1 else 0)
        ∧ count_calls is_plt_pause out = (if ch then 1 else 0)
        ∧ count_calls is_rate_sleep out = 1.
Proof.
  unfold tick, changed. intros H.
  destruct (tick_updates self l) as [[[self1 l1] out1]|] eqn:E; [|discriminate].
  apply tick_updates_artist in E. cbn in H |- *.
  exists (update_chart l1). split; [reflexivity|].
  unfold redraw in H. destruct (update_chart l1); cbn in H; injection H as <- <- <-;
    rewrite !count_calls_app;
    rewrite !(count_calls_artist _ out1) by (assumption || by intros []);
    repeat split.
Qed.

Lemma redraw_and_pause_when_changed_witness :
  ∃ ch, changed (pose_cb ready_chart (pose_at 0.5 0.5)) init_locals = Ok ch
        ∧ count_calls is_canvas_draw
            [ax_plot car_dot (scalar 0.5) (scalar 0.5) "ko" None;
             canvas_draw; plt_pause pause_interval; rate_sleep]
          = (if ch then 1 else 0)
        ∧ count_calls is_plt_pause
            [ax_plot car_dot (scalar 0.5) (scalar 0.5) "ko" None;
             canvas_draw; plt_pause pause_interval; rate_sleep]
          = (if ch then 1 else 0)
        ∧ count_calls is_rate_sleep
            [ax_plot car_dot (scalar 0.5) (scalar 0.5) "ko" None;
             canvas_draw; plt_pause pause_interval; rate_sleep]
          = 1.
Proof.
  apply (redraw_and_pause_when_changed
           (pose_cb ready_chart (pose_at 0.5 0.5))
           (snd (get_pose (pose_cb ready_chart (pose_at 0.5 0.5))))
           init_locals
           (set_update_chart false (set_first_iter false init_locals))).
  reflexivity.
Defined.

(** C5 as stated fails on a tick with nothing to draw: the second tick after
    the track arrived has [update_chart] false at line 152 and never calls
    [plt.pause]. *)
Lemma unchanged_tick_skips_pause :
  ∃ l out,
    render_loop ready_chart init_locals [ticks; ticks]
    = Ok (ready_chart, l, [[canvas_draw; plt_pause pause_interval; rate_sleep]; out])
    ∧ changed ready_chart l = Ok false
    ∧ tick ready_chart l = Ok (ready_chart, l, out)
    ∧ count_calls is_plt_pause out = 0.
Proof.
  exists (set_update_chart false init_locals), [rate_sleep]. repeat split.
Qed.

(** ** Ticks with nothing pending *)

Lemma quiet_tick (self : Chart) (l : Locals) :
  nothing_pending self →
  tick_updates self l = Ok (self, l, [])
  ∧ tick self l = Ok (self, (redraw l).1, (redraw l).2).
Proof.
  intros (Hpose & Hpath & Htl).
  assert (tick_updates self l = Ok (self, l, [])) as Hup.
  { unfold tick_updates, pose_phase, path_phase, tl_phase, pose_updated, path_updated.
    rewrite Hpose. cbn. rewrite Hpath, Htl. reflexivity. }
  split; [exact Hup|]. unfold tick. rewrite Hup. cbn. by destruct (redraw l).
Qed.

Lemma quiet_ticks_after_first (self : Chart) (l : Locals) (n : nat) :
  nothing_pending self → update_chart l = false →
  render_loop self l (replicate n ticks) = Ok (self, l, replicate n [rate_sleep]).
Proof.
  intros Hq Hl. induction n as [|n IH]; [reflexivity|].
  cbn [replicate render_loop]. destruct (quiet_tick self l Hq) as [_ ->].
  unfold redraw. rewrite Hl. cbn. rewrite IH. reflexivity.
Qed.





(** ** Traffic lights *)

Lemma tuple_index_marker (st : N) :
  (st < 4)%N → tuple_index tl_marker st = Ok (state_marker st)
               ∧ str_index0 (state_marker st) = Ok (state_colour st).
Proof.
  intros Hst. unfold tuple_index, state_colour, state_marker.
  assert (N.to_nat st < 4) as Hn by lia.
  destruct (N.to_nat st) as [|[|[|[|k]]]]; [by split..|lia].
Qed.

Lemma tl_iter_valid (tls : list Light) (tl_x tl_y : list float) (tl_c : list string) :
  Forall (λ tl : Light, (tl.2 < 4)%N) tls →
  foldl tl_iter (Ok (tl_x, tl_y, tl_c)) tls
  = Ok (tl_x ++ tls.*1.*1, tl_y ++ tls.*1.*2, tl_c ++ (state_marker <$> tls.*2)).
Proof.
  intros Hv. revert tl_x tl_y tl_c.
  induction Hv as [|tl tls Htl _ IH]; intros tl_x tl_y tl_c; cbn.
  - by rewrite !app_nil_r.
  - destruct (tuple_index_marker _ Htl) as [-> _]. cbn.
    rewrite IH, <- !app_assoc. reflexivity.
Qed.

Lemma cycle_next_first (m : string) (ms : list string) :
  cycle_next (itertools_cycle (m :: ms)) = Ok (m, {| saved := m :: ms; handed := 1 |}).
Proof.
  unfold cycle_next, itertools_cycle. cbn [saved handed].
  rewrite Nat.Div0.mod_0_l. reflexivity.
Qed.

Lemma cycle_next_second (m : string) (ms : list string) :
  cycle_next {| saved := m :: ms; handed := 1 |}
  = Ok (default m (head ms), {| saved := m :: ms; handed := 2 |}).
Proof.
  unfold cycle_next. cbn [saved handed]. destruct ms as [|m' ms].
  - reflexivity.
  - rewrite Nat.mod_small by (cbn [length]; lia). reflexivity.
Qed.

Lemma cycle_next_empty (n : nat) :
  cycle_next {| saved := []; handed := n |} = Raise StopIteration.
Proof. unfold cycle_next. cbn [saved handed]. by rewrite lookup_nil. Qed.

Lemma tl_render_valid (tl0 : Light) (rest : list Light) (l : Locals) :
  Forall (λ tl : Light, (tl.2 < 4)%N) (tl0 :: rest) →
  ∃ out, tl_render (Some (tl0 :: rest)) l
         = Ok (set_update_chart true (set_first_tl_iter false l), out)
         ∧ lights_shown tl0 rest (first_tl_iter l) out.
Proof.
  intros Hv. unfold tl_render, lights_shown. rewrite (tl_iter_valid _ _ _ _ Hv).
  apply Forall_cons in Hv as [Hv0 Hvr].
  cbn -[cycle_next itertools_cycle]. rewrite cycle_next_first.
  destruct (first_tl_iter l) eqn:Hfirst; cbn -[cycle_next].
  - eexists. split; [|apply list_elem_of_singleton; reflexivity].
    destruct l; cbn in *; subst; reflexivity.
  - rewrite (proj2 (tuple_index_marker _ Hv0)). cbn -[cycle_next].
    rewrite cycle_next_second. cbn -[cycle_next].
    assert (str_index0 (default (state_marker tl0.2) (head (state_marker <$> rest.*2)))
            = Ok (state_colour (default tl0 (head rest)).2)) as ->.
    { destruct rest as [|tl1 rest]; cbn.
      - apply (tuple_index_marker _ Hv0).
      - apply Forall_cons in Hvr as [Hv1 _]. apply (tuple_index_marker _ Hv1). }
    cbn. eexists. split.
    + destruct l; cbn in *; subst; reflexivity.
    + split; [apply list_elem_of_here | apply list_elem_of_further, list_elem_of_here].
Qed.

Lemma pose_phase_ok (self : Chart) (l : Locals) :
  pose_consistent self →
  ∃ self1 l1 out1,
    pose_phase self l = Ok (self1, l1, out1)
    ∧ is_pose_updated self1 = false
    ∧ traffic_lights self1 = traffic_lights self
    ∧ first_tl_iter l1 = first_tl_iter l.
Proof.
  intros Hc. unfold pose_phase, pose_updated, pose_get_step, get_pose, pose_render.
  destruct (is_pose_updated self) eqn:Hup.
  - destruct (pose self) as [[x y]|] eqn:Hp; [|by destruct (Hc Hup)].
    destruct (first_iter l); cbn; eexists _, _, _; repeat split.
  - eexists _, _, _; repeat split. exact Hup.
Qed.

Lemma path_iter_locals (path : list Msg.Waypoint)
    (acc : list float * list float * Locals * list call) :
  first_tl_iter (foldl path_iter acc path).1.2 = first_tl_iter acc.1.2.
Proof.
  revert acc. induction path as [|wp path IH]; intros acc; cbn; [reflexivity|].
  rewrite IH. destruct acc as [[[xs ys] l] out]. cbn.
  by destruct (first_path_iter l).
Qed.

Lemma path_phase_keeps (self : Chart) (l : Locals) :
  let '(self2, l2, _) := path_phase self l in
  is_pose_updated self2 = is_pose_updated self
  ∧ pose self2 = pose self
  ∧ traffic_lights self2 = traffic_lights self
  ∧ first_tl_iter l2 = first_tl_iter l.
Proof.
  unfold path_phase, path_get_step, get_path, path_render.
  destruct (path_updated self); [|by repeat split].
  pose proof (path_iter_locals (path self) ([], [], l, [])) as H.
  destruct (foldl path_iter ([], [], l, []) (path self)) as [[[xs ys] l'] out].
  by repeat split.
Qed.

Lemma lights_shown_within (tl0 : Light) (rest : list Light) (first : bool)
    (before out after : list call) :
  lights_shown tl0 rest first out → lights_shown tl0 rest first (before ++ out ++ after).
Proof.
  unfold lights_shown. destruct first.
  - intros H. apply elem_of_app. right. apply elem_of_app. by left.
  - intros [H1 H2]. split; apply elem_of_app; right; apply elem_of_app; by left.
Qed.

(** A tick that finds lights: it goes through, keeps the snapshot, shows
    the lights and redraws. *)
Lemma tick_with_lights (self : Chart) (l : Locals) (tl0 : Light) (rest : list Light) :
  pose_consistent self →
  traffic_lights self = Some (tl0 :: rest) →
  Forall (λ tl : Light, (tl.2 < 4)%N) (tl0 :: rest) →
  ∃ self' l' out,
    tick self l = Ok (self', l', out)
    ∧ changed self l = Ok true
    ∧ pose_consistent self'
    ∧ traffic_lights self' = Some (tl0 :: rest)
    ∧ first_tl_iter l' = false
    ∧ lights_shown tl0 rest (first_tl_iter l) out
    ∧ count_calls is_canvas_draw out = 1.
Proof.
  intros Hc Htl Hv.
  destruct (pose_phase_ok self l Hc) as (self1 & l1 & out1 & H1 & Hup1 & Htl1 & Hf1).
  pose proof (path_phase_keeps self1 l1) as H2.
  pose proof (path_phase_artist self1 l1) as A2.
  destruct (path_phase self1 l1) as [[self2 l2] out2] eqn:E2.
  destruct H2 as (Hup2 & _ & Htl2 & Hf2). cbn in A2.
  destruct (tl_render_valid tl0 rest l2 Hv) as (out3 & H3 & Hshown).
  assert (tl_phase self2 l2 = Ok (set_update_chart true (set_first_tl_iter false l2), out3)) as E3.
  { unfold tl_phase, tl_get_step, get_traffic_lights. by rewrite Htl2, Htl1, Htl. }
  assert (tick_updates self l
          = Ok (self2, set_update_chart true (set_first_tl_iter false l2), out1 ++ out2 ++ out3))
    as Hup.
  { unfold tick_updates. rewrite H1. cbn. rewrite E2, E3. reflexivity. }
  eexists self2, _, _. split; [|split].
  - unfold tick. rewrite Hup. cbn. reflexivity.
  - unfold changed. rewrite Hup. reflexivity.
  - split; [|split; [|split; [|split]]].
    + intros Hup'. congruence.
    + congruence.
    + reflexivity.
    + rewrite <- Hf1, <- Hf2.
      replace ((out1 ++ out2 ++ out3) ++ [canvas_draw; plt_pause pause_interval; rate_sleep])
        with ((out1 ++ out2) ++ out3 ++ [canvas_draw; plt_pause pause_interval; rate_sleep])
        by (by rewrite <- !app_assoc).
      by apply lights_shown_within.
    + apply pose_phase_artist in H1. apply tl_render_artist in H3.
      rewrite !count_calls_app.
      rewrite (count_calls_artist _ out1), (count_calls_artist _ out2),
        (count_calls_artist _ out3) by (assumption || by intros []).
      reflexivity.
Qed.

Lemma deliver_quiet_consistent (self : Chart) (m : message) :
  pose_consistent self → pose_consistent (deliver_quiet self m).
Proof.
  unfold pose_consistent, deliver_quiet. destruct m as [msg|msg|msg|msg]; cbn; try done.
  unfold waypoints_cb. by destruct (length (waypoints self) =? 0).
Qed.

Lemma deliver_quiet_keeps_lights (self : Chart) (m : message) :
  is_signal_msg m = false →
  traffic_lights (deliver_quiet self m) = traffic_lights self.
Proof.
  unfold deliver_quiet. destruct m as [msg|msg|msg|msg]; cbn; try done.
  unfold waypoints_cb. by destruct (length (waypoints self) =? 0).
Qed.

Lemma lights_every_tick (es : list tick_event) (self : Chart) (l : Locals)
    (tl0 : Light) (rest : list Light) :
  pose_consistent self →
  traffic_lights self = Some (tl0 :: rest) →
  Forall (λ tl : Light, (tl.2 < 4)%N) (tl0 :: rest) →
  forallb (λ e, negb (is_arrival_of is_signal_msg e)) es = true →
  ∃ self' l' outs,
    render_loop self l es = Ok (self', l', outs)
    ∧ pose_consistent self'
    ∧ traffic_lights self' = Some (tl0 :: rest)
    ∧ length outs = count_ticks es
    ∧ match outs with
      | [] => True
      | out :: outs' =>
          lights_shown tl0 rest (first_tl_iter l) out
          ∧ Forall (lights_shown tl0 rest false) outs'
      end
    ∧ Forall (λ out, count_calls is_canvas_draw out = 1) outs.
Proof.
  revert self l. induction es as [|e es IH]; intros self l Hc Htl Hv Hes.
  - exists self, l, []. by repeat split.
  - cbn in Hes. apply andb_prop in Hes as [He Hes]. apply negb_true_iff in He.
    destruct e as [m|]; cbn [render_loop count_ticks].
    + apply IH; [by apply deliver_quiet_consistent| |done..].
      by rewrite deliver_quiet_keeps_lights.
    + destruct (tick_with_lights self l tl0 rest Hc Htl Hv)
        as (self1 & l1 & out & -> & _ & Hc1 & Htl1 & Hf1 & Hshown & Hdraw).
      destruct (IH self1 l1 Hc1 Htl1 Hv Hes)
        as (self' & l' & outs & Hrun & Hc' & Htl' & Hlen & Hall & Hdraws).
      cbn. rewrite Hrun. cbn. exists self', l', (out :: outs). repeat split; try done.
      * cbn. by rewrite Hlen.
      * rewrite Hf1 in Hall. destruct outs as [|out' outs']; [constructor|].
        destruct Hall as [Hhd Htl2]. by constructor.
      * by constructor.
Qed.

Lemma traffic_lights_cb_stores (self : Chart) (msg : Msg.TrafficLightArray) :
  traffic_lights (traffic_lights_cb self msg) = Some (light_tuple <$> Msg.lights msg).
Proof.
  unfold traffic_lights_cb. cbn. f_equal.
  enough (∀ ls acc, foldl (λ acc tl, acc ++ [light_tuple tl]) acc ls
                    = acc ++ (light_tuple <$> ls)) as H by apply (H _ []).
  induction ls as [|tl ls IH]; intros acc; cbn.
  - by rewrite app_nil_r.
  - by rewrite IH, <- app_assoc.
Qed.

(** X19.  Signal rendering is gated on presence, not on a flag.  Once
    [traffic_lights_cb] has stored a snapshot with at least one light
    (states within the four of [tl_marker]), every tick that follows, with
    pose, path and track deliveries in between but no further signal
    message, goes through, keeps the same stored snapshot, makes the calls
    on the light markers and draws the canvas once, that is, finds
    [update_chart] true, and the tick after the run is again one that has
    changed.  The calls are the plot of all the positions with the first
    light's marker on the first such tick, and afterwards the face colour
    of the first light and the edge colour of the second (of the first when
    it is the only one). *)
Theorem signals_shown_on_every_tick (self0 : Chart) (l : Locals)
    (light0 : Msg.TrafficLight) (lights : list Msg.TrafficLight) (es : list tick_event) :
  pose_consistent self0 →
  Forall (λ tl, (Msg.state tl < 4)%N) (light0 :: lights) →
  forallb (λ e, negb (is_arrival_of is_signal_msg e)) es = true →
  let snapshot := light_tuple <$> light0 :: lights in
  ∃ self' l' outs,
    render_loop (traffic_lights_cb self0 (lights_at (light0 :: lights))) l es
    = Ok (self', l', outs)
    ∧ get_traffic_lights self' = Some snapshot
    ∧ length outs = count_ticks es
    ∧ match outs with
      | [] => True
      | out :: outs' =>
          lights_shown (light_tuple light0) (light_tuple <$> lights) (first_tl_iter l) out
          ∧ Forall (lights_shown (light_tuple light0) (light_tuple <$> lights) false) outs'
      end
    ∧ Forall (λ out, count_calls is_canvas_draw out = 1) outs
    ∧ changed self' l' = Ok true.
Proof.
  intros Hc Hv Hes snapshot.
  assert (Forall (λ tl : Light, (tl.2 < 4)%N) (light_tuple light0 :: (light_tuple <$> lights)))
    as Hv'.
  { change (Forall (λ tl : Light, (tl.2 < 4)%N) (light_tuple <$> light0 :: lights)).
    apply Forall_fmap. exact Hv. }
  destruct (lights_every_tick es (traffic_lights_cb self0 (lights_at (light0 :: lights))) l
              (light_tuple light0) (light_tuple <$> lights))
    as (self' & l' & outs & Hrun & Hc' & Htl' & Hlen & Hall & Hdraws); try done.
  { apply traffic_lights_cb_stores. }
  destruct (tick_with_lights self' l' _ _ Hc' Htl' Hv') as (_ & _ & _ & _ & Hch & _).
  exists self', l', outs. repeat split; done.
Qed.

Lemma signals_shown_on_every_tick_witness :
  ∃ self' l' outs,
    render_loop (traffic_lights_cb ready_chart (lights_at [light_at 5 5 2])) init_locals
      [ticks; arrives (pose_msg (pose_at 0.5 0.5)); ticks; ticks]
    = Ok (self', l', outs)
    ∧ get_traffic_lights self' = Some [(5%float, 5%float, 2%N)]
    ∧ length outs = 3
    ∧ match outs with
      | [] => True
      | out :: outs' =>
          lights_shown (5%float, 5%float, 2%N) [] true out
          ∧ Forall (lights_shown (5%float, 5%float, 2%N) [] false) outs'
      end
    ∧ Forall (λ out, count_calls is_canvas_draw out = 1) outs
    ∧ changed self' l' = Ok true.
Proof.
  apply (signals_shown_on_every_tick ready_chart init_locals (light_at 5 5 2) []
           [ticks; arrives (pose_msg (pose_at 0.5 0.5)); ticks; ticks]).
  - intros H. discriminate H.
  - repeat constructor.
  - reflexivity.
Defined.

(** The snapshot [(5, 5, 2)] written once: the first tick plots the marker
    green, and each later tick sets its face and edge colour to green again
    although no signal message has arrived since. *)
Example one_green_light_every_tick :
  render_loop (traffic_lights_cb ready_chart (lights_at [light_at 5 5 2]))
    (set_update_chart false init_locals) [ticks; ticks; ticks]
  = Ok (traffic_lights_cb ready_chart (lights_at [light_at 5 5 2]),
        set_first_tl_iter false (set_update_chart false init_locals),
        [[ax_plot tl_dots (seq [5%float]) (seq [5%float]) "go" None;
          canvas_draw; plt_pause pause_interval; rate_sleep];
         [set_markerfacecolor tl_dots "g"; set_markeredgecolor tl_dots "g";
          canvas_draw; plt_pause pause_interval; rate_sleep];
         [set_markerfacecolor tl_dots "g"; set_markeredgecolor tl_dots "g";
          canvas_draw; plt_pause pause_interval; rate_sleep]]).
Proof. reflexivity. Qed.

(** C6, where the code departs from it.  A snapshot of two lights, red at
    (0, 0) and green at (1, 1), written once: each of the three ticks that
    follow re-reads it, calls on the markers and draws, with no further
    signal message, as the claim says; but the markers are not shown with
    the stored states.  The first tick plots both with the first light's
    marker, and the later ticks give every marker the first light's colour
    as face colour, while the stored state of the second light stands for
    the marker "go" and the colour "g". *)
Theorem second_light_shown_with_first_state :
  render_loop (traffic_lights_cb ready_chart (lights_at [light_at 0 0 0; light_at 1 1 2]))
    init_locals [ticks; ticks; ticks]
  = Ok (traffic_lights_cb ready_chart (lights_at [light_at 0 0 0; light_at 1 1 2]),
        set_first_tl_iter false (set_update_chart false init_locals),
        [[ax_plot tl_dots (seq [0; 1]%float) (seq [0; 1]%float) "ro" None;
          canvas_draw; plt_pause pause_interval; rate_sleep];
         [set_markerfacecolor tl_dots "r"; set_markeredgecolor tl_dots "g";
          canvas_draw; plt_pause pause_interval; rate_sleep];
         [set_markerfacecolor tl_dots "r"; set_markeredgecolor tl_dots "g";
          canvas_draw; plt_pause pause_interval; rate_sleep]])
  ∧ state_marker 2 = "go"%string
  ∧ state_colour 2 = "g"%string.
Proof. repeat split. Qed.

(** A stored snapshot with no lights stops any tick with StopIteration. *)
Lemma empty_snapshot_stops_tick (self : Chart) (l : Locals) :
  pose_consistent self → traffic_lights self = Some [] →
  tick self l = Raise StopIteration.
Proof.
  intros Hc Htl.
  destruct (pose_phase_ok self l Hc) as (self1 & l1 & out1 & H1 & _ & Htl1 & _).
  pose proof (path_phase_keeps self1 l1) as H2.
  unfold tick, tick_updates. rewrite H1. cbn.
  destruct (path_phase self1 l1) as [[self2 l2] out2].
  destruct H2 as (_ & _ & Htl2 & _).
  unfold tl_phase, tl_get_step, get_traffic_lights. rewrite Htl2, Htl1, Htl.
  unfold tl_render. cbn -[cycle_next]. unfold itertools_cycle.
  rewrite cycle_next_empty. by destruct (first_tl_iter l2).
Qed.

(** C7, where the code departs from it.  A signal message with no lights
    stores the empty list, which is not [None]: the tick enters the
    traffic-light block, builds the cycle over no markers and raises
    StopIteration at [marker.next()], on the first tick (line 144) and on
    any later one (line 148) alike; the exception leaves [loop].  With no
    snapshot at all the block is skipped and the tick goes through. *)
Theorem empty_snapshot_raises :
  let self := traffic_lights_cb ready_chart (lights_at []) in
  get_traffic_lights self = Some []
  ∧ tick self init_locals = Raise StopIteration
  ∧ tick self (set_first_tl_iter false init_locals) = Raise StopIteration
  ∧ run boot (callback (track_msg track3) :: callback (signal_msg (lights_at []))
              :: replicate 6 step)
    = Raise StopIteration
  ∧ tl_phase ready_chart init_locals = Ok (init_locals, []).
Proof. repeat split. Qed.

(** C9, where the code departs from it.  Two lights, red at (0, 0) and
    green at (1, 1): the first tick plots both with the first light's
    marker; after a new snapshot that moves both lights and swaps their
    states, the next tick gives every marker the face colour of the first
    light and the edge colour of the second, and sets no position. *)
Theorem markers_share_first_lights_colour :
  render_loop ready_chart init_locals
    [arrives (signal_msg (lights_at [light_at 0 0 0; light_at 1 1 2]));
     ticks;
     arrives (signal_msg (lights_at [light_at 5 5 2; light_at 6 6 0]));
     ticks]
  = Ok (traffic_lights_cb ready_chart (lights_at [light_at 5 5 2; light_at 6 6 0]),
        set_first_tl_iter false (set_update_chart false init_locals),
        [[ax_plot tl_dots (seq [0; 1]%float) (seq [0; 1]%float) "ro" None;
          canvas_draw; plt_pause pause_interval; rate_sleep];
         [set_markerfacecolor tl_dots "g"; set_markeredgecolor tl_dots "r";
          canvas_draw; plt_pause pause_interval; rate_sleep]]).
Proof. reflexivity. Qed.

(** ** The pose store under interleaving *)

Lemma deliver_quiet_pose (self : Chart) (m : message) :
  match m with
  | pose_msg msg =>
      pose (deliver_quiet self m)
      = Some (Msg.x (Msg.pose_position msg), Msg.y (Msg.pose_position msg))
      ∧ is_pose_updated (deliver_quiet self m) = true
  | _ =>
      pose (deliver_quiet self m) = pose self
      ∧ is_pose_updated (deliver_quiet self m) = is_pose_updated self
  end.
Proof.
  unfold deliver_quiet. destruct m as [msg|msg|msg|msg]; cbn; try done.
  unfold waypoints_cb. by destruct (length (waypoints self) =? 0).
Qed.

Lemma path_get_step_pose (self : Chart) (l : Locals) :
  pose (path_get_step self l).1.1 = pose self
  ∧ is_pose_updated (path_get_step self l).1.1 = is_pose_updated self.
Proof.
  unfold path_get_step, get_path. by destruct (path_render (path self) l).
Qed.

(** A step of the loop thread other than the extraction leaves the pose
    store alone, and reaches the extraction only past a successful check. *)
Lemma loop_step_keeps_pose (s s' : sys) (out : list call) :
  at_pc s ≠ AtPoseGet → loop_step s = Ok (s', out) →
  pose (chart s') = pose (chart s)
  ∧ is_pose_updated (chart s') = is_pose_updated (chart s)
  ∧ (at_pc s' = AtPoseGet → is_pose_updated (chart s) = true).
Proof.
  unfold loop_step. intros Hpc H. destruct (at_pc s) eqn:E; try done.
  - destruct (is_shutdown s); [by injection H as <- <-|].
    destruct (length (get_waypoints (chart s)) =? 0); injection H as <- <-;
      rewrite ?E; done.
  - destruct (is_shutdown s); by injection H as <- <-.
  - unfold pose_updated in H.
    destruct (is_pose_updated (chart s)) eqn:Hu; by injection H as <- <-.
  - destruct (path_updated (chart s)); by injection H as <- <-.
  - pose proof (path_get_step_pose (chart s) (locals s)) as [Hp Hu].
    destruct (path_get_step (chart s) (locals s)) as [[self' l'] o].
    by injection H as <- <-.
  - destruct (traffic_lights (chart s)); by injection H as <- <-.
  - destruct (tl_get_step (chart s) (locals s)) as [[l' o]|]; [|done].
    by injection H as <- <-.
  - destruct (redraw (locals s)) as [l' o]. by injection H as <- <-.
  - injection H as <- <-. rewrite E. done.
Qed.

(** Only the check leads to the extraction. *)
Lemma loop_step_reaches_get (s s' : sys) (out : list call) :
  loop_step s = Ok (s', out) → at_pc s' = AtPoseGet → at_pc s = AtPoseCheck.
Proof.
  unfold loop_step. intros H. destruct (at_pc s) eqn:E; try done.
  - destruct (is_shutdown s); [by injection H as <- <-|].
    destruct (length (get_waypoints (chart s)) =? 0); injection H as <- <-;
      rewrite ?E; done.
  - destruct (is_shutdown s); by injection H as <- <-.
  - destruct (pose_get_step (chart s) (locals s)) as [[[self' l'] o]|]; [|done].
    by injection H as <- <-.
  - destruct (path_updated (chart s)); by injection H as <- <-.
  - destruct (path_get_step (chart s) (locals s)) as [[self' l'] o].
    by injection H as <- <-.
  - destruct (traffic_lights (chart s)); by injection H as <- <-.
  - destruct (tl_get_step (chart s) (locals s)) as [[l' o]|]; [|done].
    by injection H as <- <-.
  - destruct (redraw (locals s)) as [l' o]. by injection H as <- <-.
  - injection H as <- <-. rewrite E. done.
Qed.

(** The extraction clears the flag and moves on. *)
Lemma loop_step_at_get (s s' : sys) (out : list call) :
  at_pc s = AtPoseGet → loop_step s = Ok (s', out) →
  pose (chart s') = pose (chart s)
  ∧ is_pose_updated (chart s') = false
  ∧ at_pc s' = AtPathCheck.
Proof.
  unfold loop_step. intros -> H. unfold pose_get_step, get_pose in H.
  destruct (pose_render (pose (chart s)) (locals s)) as [[l' o]|]; [|done].
  by injection H as <- <-.
Qed.

Lemma pose_log_inv (es : list event) (s : sys) (pre : list (float * float)) (lastk : nat) :
  pose_store_inv s pre lastk →
  let log := pose_log s (length pre) es in
  Forall (λ kv, lastk < kv.1) log
  ∧ StronglySorted lt log.*1
  ∧ Forall (λ kv, ∃ p, kv.2 = Some p ∧ (pre ++ pose_writes es) !! (kv.1 - 1) = Some p) log.
Proof.
  revert s pre lastk. induction es as [|e es IH]; intros s pre lastk Hinv.
  { cbn. repeat split; constructor. }
  destruct Hinv as (Hlast & Hle & Hflag & Hpc).
  destruct e as [m| | |lane]; cbn [pose_log sys_step].
  - (* a callback *)
    pose proof (deliver_quiet_pose (chart s) m) as Hm.
    destruct m as [msg|msg|msg|msg]; cbn [pose_writes app];
      destruct Hm as [Hp Hu].
    2: { (* pose_cb *)
      specialize (IH {| chart := deliver_quiet (chart s) (pose_msg msg); locals := locals s;
                        at_pc := at_pc s; is_shutdown := is_shutdown s |}
                     (pre ++ [(Msg.x (Msg.pose_position msg), Msg.y (Msg.pose_position msg))])
                     lastk).
      rewrite length_app, Nat.add_1_r, <- app_assoc in IH. cbn [app] in IH.
      apply IH. repeat split; cbn [chart at_pc].
      - by rewrite last_snoc.
      - rewrite length_app. lia.
      - intros _. rewrite length_app. cbn. lia. }
    all: apply (IH {| chart := deliver_quiet (chart s) _; locals := locals s;
                      at_pc := at_pc s; is_shutdown := is_shutdown s |} pre lastk);
      repeat split; cbn [chart at_pc]; rewrite ?Hp, ?Hu; done.
  - (* a step of the loop thread *)
    unfold pose_taken. destruct (decide (at_pc s = AtPoseGet)) as [Hget|Hother].
    + rewrite Hget. destruct (loop_step s) as [[s' out]|] eqn:Hstep;
        [|by repeat split; constructor].
      destruct (loop_step_at_get s s' out Hget Hstep) as (Hp' & Hu' & Hpc').
      specialize (Hflag (Hpc Hget)). cbn [fst get_pose app].
      destruct (IH s' pre (length pre)) as (Hgt & Hsorted & Hvals).
      { repeat split; [congruence|lia|congruence|congruence]. }
      cbn [pose_writes]. repeat split.
      * constructor; [exact Hflag|]. eapply Forall_impl; [exact Hgt|].
        cbn. intros kv ?. lia.
      * cbn [fmap list_fmap]. constructor; [exact Hsorted|].
        apply Forall_fmap. exact Hgt.
      * constructor; [|exact Hvals]. cbn [fst snd].
        destruct (last pre) as [p|] eqn:Hl.
        -- exists p. split; [congruence|].
           rewrite lookup_app_l by lia. rewrite last_lookup in Hl.
           by replace (length pre - 1) with (pred (length pre)) by lia.
        -- apply last_None in Hl. subst pre. cbn in Hflag. lia.
    + assert (match at_pc s with AtPoseGet => Some (get_pose (chart s)).1 | _ => None end
              = None) as -> by (by destruct (at_pc s)).
      destruct (loop_step s) as [[s' out]|] eqn:Hstep;
        [|by repeat split; constructor].
      destruct (loop_step_keeps_pose s s' out Hother Hstep) as (Hp' & Hu' & Hpc').
      cbn [app pose_writes]. apply (IH s' pre lastk).
      repeat split; [congruence | lia | by rewrite Hu' | by rewrite Hu'].
  - (* shutdown *)
    cbn [app pose_writes].
    apply (IH {| chart := chart s; locals := locals s; at_pc := at_pc s;
                 is_shutdown := true |} pre lastk).
    by repeat split.
  - (* the locked part of a track callback *)
    cbn [app pose_writes].
    apply (IH {| chart := waypoints_cb_locked (chart s) lane; locals := locals s;
                 at_pc := at_pc s; is_shutdown := is_shutdown s |} pre lastk).
    by repeat split.
Qed.

(** Values read at strictly increasing positions of a list form a sublist
    of it. *)
Lemma increasing_reads_sublist {A} (ws : list A) (log : list (nat * A)) (base : nat) :
  StronglySorted lt log.*1 →
  Forall (λ kv, base < kv.1 ∧ ws !! (kv.1 - 1 - base) = Some kv.2) log →
  log.*2 `sublist_of` ws.
Proof.
  revert log base. induction ws as [|w ws IH]; intros log base Hsorted Hreads.
  - destruct log as [|[k v] log]; [constructor|].
    apply Forall_cons in Hreads as [[_ Hk] _]. by rewrite lookup_nil in Hk.
  - destruct log as [|[k v] log]; [apply sublist_nil_l|].
    assert (∀ L : list (nat * A),
              Forall (λ kv, S base < kv.1 ∧ (w :: ws) !! (kv.1 - 1 - base) = Some kv.2) L →
              Forall (λ kv, S base < kv.1 ∧ ws !! (kv.1 - 1 - S base) = Some kv.2) L) as Hshift.
    { intros L HL. eapply Forall_impl; [exact HL|].
      intros [k' v'] [Hlt Hk']. cbn in *. split; [lia|].
      replace (k' - 1 - base) with (S (k' - 1 - S base)) in Hk' by lia. exact Hk'. }
    pose proof Hreads as Hall.
    apply Forall_cons in Hreads as [[Hlt Hk] Hrest]. cbn in Hlt, Hk.
    cbn [fmap list_fmap] in Hsorted. apply StronglySorted_inv in Hsorted as [Hsorted Hgt].
    destruct (decide (k = S base)) as [->|Hne].
    + replace (S base - 1 - base) with 0 in Hk by lia. cbn in Hk. injection Hk as ->.
      cbn. apply sublist_skip. apply (IH log (S base) Hsorted). apply Hshift.
      apply Forall_forall. intros [k' v'] Hin. cbn. split.
      * rewrite Forall_forall in Hgt. apply Hgt.
        apply (list_elem_of_fmap_2 fst _ _ Hin).
      * rewrite Forall_forall in Hrest. apply (Hrest (k', v') Hin).
    + apply sublist_cons. apply (IH ((k, v) :: log) (S base)).
      * cbn [fmap list_fmap]. by constructor.
      * apply Hshift. apply Forall_forall. intros [k' v'] Hin. cbn.
        rewrite Forall_forall in Hall. destruct (Hall _ Hin) as [Hlt' Hk']. cbn in *.
        split; [|exact Hk'].
        apply elem_of_cons in Hin as [[= -> ->]|Hin]; [lia|].
        assert (k < k'); [|lia].
        rewrite Forall_forall in Hgt. apply Hgt.
        apply (list_elem_of_fmap_2 fst _ _ Hin).
Qed.

Lemma boot_pose_store_inv : pose_store_inv boot [] 0.
Proof. repeat split; cbn; (lia || done). Qed.

(** C1.  Along every schedule of callbacks, loop steps and shutdown, run
    from the start of the node: the extractions the loop performs return
    writes of strictly increasing number, so no write is returned twice and
    none after a later one has been returned; the value an extraction
    returns is the last pose written before it, never an earlier one; and
    the values returned, in order, are a sublist of the values written, in
    order. *)
Theorem pose_taken_once_in_write_order (es : list event) :
  let log := pose_log boot 0 es in
  StronglySorted lt log.*1
  ∧ Forall (λ kv, 1 ≤ kv.1
                  ∧ ∃ p, kv.2 = Some p
                         ∧ pose_writes es !! (kv.1 - 1) = Some p
                         ∧ last (take kv.1 (pose_writes es)) = Some p) log
  ∧ log.*2 `sublist_of` (Some <$> pose_writes es).
Proof.
  destruct (pose_log_inv es boot [] 0 boot_pose_store_inv) as (Hpos & Hsorted & Hvals).
  cbn [length app] in *. set (log := pose_log boot 0 es) in *. cbn zeta.
  split; [exact Hsorted|]. split.
  - apply Forall_forall. intros [k v] Hin.
    rewrite Forall_forall in Hpos, Hvals.
    specialize (Hpos _ Hin). destruct (Hvals _ Hin) as (p & Hv & Hk). cbn in *.
    split; [lia|]. exists p. repeat split; [exact Hv|exact Hk|].
    rewrite last_lookup.
    assert (k ≤ length (pose_writes es)) as Hlen.
    { apply lookup_lt_Some in Hk. lia. }
    rewrite length_take, Nat.min_l by exact Hlen.
    rewrite lookup_take_lt by lia.
    by replace (pred k) with (k - 1) by lia.
  - apply (increasing_reads_sublist _ log 0 Hsorted).
    apply Forall_forall. intros [k v] Hin.
    rewrite Forall_forall in Hpos, Hvals.
    specialize (Hpos _ Hin). destruct (Hvals _ Hin) as (p & Hv & Hk). cbn in *.
    split; [exact Hpos|]. rewrite Nat.sub_0_r, list_lookup_fmap, Hk, Hv. reflexivity.
Qed.

(** A schedule with a write between the check and the extraction, and two
    writes before the next check: the loop shows the second and the fourth
    pose, each once. *)
Example pose_log_interleaved :
  pose_log boot 0
    ([callback (track_msg track3); step; step;
      callback (pose_msg (pose_at 1 1)); step;
      callback (pose_msg (pose_at 2 2)); step]
     ++ replicate 4 step
     ++ [callback (pose_msg (pose_at 3 3)); callback (pose_msg (pose_at 4 4))]
     ++ replicate 3 step)
  = [(2, Some (2%float, 2%float)); (4, Some (4%float, 4%float))].
Proof. reflexivity. Qed.

(** ** The check and the extraction as one take *)

Lemma deliver_quiet_keeps_flag (self : Chart) (m : message) :
  is_pose_updated self = true → is_pose_updated (deliver_quiet self m) = true.
Proof.
  intros H. pose proof (deliver_quiet_pose self m) as Hm.
  destruct m; destruct Hm as [_ Hu]; congruence.
Qed.

(** Each event of the node is matched by the one-step take: a kept event is
    the same event there, and a dropped one changes nothing it can see. *)
Lemma step_matches_take (s : sys) (e : event) :
  (at_pc s = AtPoseGet → is_pose_updated (chart s) = true) →
  match sys_step s e with
  | Raise x => sys_step_atomic (before_take s) e = Raise x
  | Ok (s1, out) =>
      (at_pc s1 = AtPoseGet → is_pose_updated (chart s1) = true)
      ∧ if kept s e then sys_step_atomic (before_take s) e = Ok (before_take s1, out)
        else before_take s1 = before_take s ∧ out = []
  end.
Proof.
  intros Hinv. destruct e as [m| | |lane].
  - (* a callback *)
    cbn. split.
    + intros Hpc. by apply deliver_quiet_keeps_flag, Hinv.
    + destruct s as [c l p sh]. by destruct p.
  - (* a step of the loop thread *)
    destruct (decide (at_pc s = AtPoseGet)) as [Hget|Hnget].
    + (* the extraction *)
      specialize (Hinv Hget). unfold kept. rewrite Hget.
      unfold before_take. rewrite Hget.
      cbn [sys_step sys_step_atomic]. unfold loop_step_atomic, loop_step.
      rewrite Hget. cbn [at_pc sys_at chart locals].
      unfold try_take_if_dirty, pose_get_step, get_pose. rewrite Hinv.
      destruct (pose_render (pose (chart s)) (locals s)) as [[l' out]|]; cbn; [|done].
      split; [done|]. reflexivity.
    + destruct (decide (at_pc s = AtPoseCheck)) as [Hcheck|Hncheck].
      * (* the check *)
        unfold kept. rewrite Hcheck. unfold before_take. rewrite Hcheck.
        cbn [sys_step sys_step_atomic]. unfold loop_step_atomic, loop_step.
        rewrite Hcheck. unfold try_take_if_dirty, pose_updated.
        destruct (is_pose_updated (chart s)) eqn:Hu; cbn.
        -- split; [done|]. split; [|done].
           destruct s as [c l p sh]. cbn in *. by subst p.
        -- split; [done|]. reflexivity.
      * (* any other step *)
        assert (before_take s = s) as Hs by (unfold before_take; by destruct (at_pc s)).
        assert (kept s step = true) as -> by (unfold kept; by destruct (at_pc s)).
        assert (sys_step_atomic s step = sys_step s step) as Hsame.
        { cbn. unfold loop_step_atomic. by destruct (at_pc s). }
        rewrite Hs, Hsame. cbn [sys_step].
        destruct (loop_step s) as [[s1 out]|] eqn:Hstep; [|done].
        destruct (loop_step_keeps_pose s s1 out Hnget Hstep) as (_ & Hu & Hpc).
        pose proof (loop_step_reaches_get s s1 out Hstep) as Hn1.
        assert (at_pc s1 ≠ AtPoseGet) as Hn1' by (intros ?; by apply Hncheck, Hn1).
        split; [done|]. f_equal. f_equal. unfold before_take.
        by destruct (at_pc s1).
  - (* shutdown *)
    cbn. split; [exact Hinv|]. destruct s as [c l p sh]. by destruct p.
  - (* the locked part of a track callback *)
    cbn. split; [exact Hinv|]. destruct s as [c l p sh]. by destruct p.
Qed.

Lemma run_matches_take (es : list event) (s : sys) :
  (at_pc s = AtPoseGet → is_pose_updated (chart s) = true) →
  run_atomic (before_take s) (linearize s es) = prod_map before_take id <$> run s es.
Proof.
  revert s. induction es as [|e es IH]; intros s Hinv; [reflexivity|].
  cbn [linearize run]. pose proof (step_matches_take s e Hinv) as Hstep.
  destruct (sys_step s e) as [[s1 out]|x]; cbn.
  - destruct Hstep as [Hinv1 Hstep]. specialize (IH s1 Hinv1).
    destruct (kept s e); cbn.
    + rewrite Hstep. cbn. rewrite IH. by destruct (run s1 es) as [[s2 out2]|].
    + destruct Hstep as [Hsame ->]. rewrite <- Hsame, IH.
      by destruct (run s1 es) as [[s2 out2]|].
  - by rewrite Hstep.
Qed.

Lemma linearize_keeps_writes (es : list event) (s : sys) :
  pose_writes (linearize s es) = pose_writes es.
Proof.
  revert s. induction es as [|e es IH]; intros s; [reflexivity|].
  cbn [linearize]. destruct (sys_step s e) as [[s1 out]|x]; [|reflexivity].
  destruct e as [m| | |lane]; cbn.
  - destruct m; cbn; by rewrite IH.
  - unfold kept. destruct (at_pc s); cbn; try apply IH.
    destruct (pose_updated (chart s)); cbn; apply IH.
  - apply IH.
  - apply IH.
Qed.

(** C2, as the code has it.  [pose_updated] and [get_pose] take the lock
    separately, so callbacks can run between the check and the extraction;
    [get_pose] itself extracts and clears the flag in one step.  Every run
    of the node is nevertheless matched by a run in which check and
    extraction are the single take [try_take_if_dirty], made when the node
    extracts: the writes are the same in the same order, the calls are the
    same and so is the state reached.  A write that lands between the check
    and the extraction is the value extracted, with the flag cleared, and
    no write is extracted twice. *)
Theorem check_then_get_matches_one_take (es : list event) :
  (∀ self, fst (get_pose self) = pose self
           ∧ is_pose_updated (snd (get_pose self)) = false)
  ∧ run_atomic boot (linearize boot es) = prod_map before_take id <$> run boot es
  ∧ pose_writes (linearize boot es) = pose_writes es
  ∧ (∀ self msg,
       fst (get_pose (pose_cb self msg))
       = Some (Msg.x (Msg.pose_position msg), Msg.y (Msg.pose_position msg))
       ∧ pose_updated (snd (get_pose (pose_cb self msg))) = false)
  ∧ StronglySorted lt (pose_log boot 0 es).*1.
Proof.
  split; [by intros self|]. split; [|split; [|split]].
  - apply (run_matches_take es boot). discriminate.
  - apply linearize_keeps_writes.
  - by intros self msg.
  - apply (pose_log_inv es boot [] 0 boot_pose_store_inv).
Qed.

(** C2 as stated fails when a write lands between the check and the
    extraction: the check passes on the pose (1, 1), the extraction returns
    (2, 2), and (1, 1) is never shown; with the check and the extraction as
    one take at the place of the check, the same schedule shows (1, 1). *)
Lemma write_between_check_and_get :
  let es := [callback (track_msg track3); step; step;
             callback (pose_msg (pose_at 1 1)); step;
             callback (pose_msg (pose_at 2 2)); step] in
  let track_calls :=
    [rate_sleep;
     ax_plot track_line (seq [0; 1; 2]%float) (seq [0; 1; 2]%float) "b" None;
     plt_show] in
  (∃ s, run boot (take 5 es) = Ok (s, track_calls)
        ∧ at_pc s = AtPoseGet
        ∧ pose (chart s) = Some (1%float, 1%float))
  ∧ (∃ s, run boot es
          = Ok (s, track_calls ++ [ax_plot car_dot (scalar 2) (scalar 2) "ko" None])
          ∧ pose_updated (chart s) = false)
  ∧ (∃ s, run_atomic boot es
          = Ok (s, track_calls ++ [ax_plot car_dot (scalar 1) (scalar 1) "ko" None]))
  ∧ pose_writes es = [(1%float, 1%float); (2%float, 2%float)]
  ∧ pose_log boot 0 es = [(2, Some (2%float, 2%float))].
Proof. repeat split; eexists; repeat split. Qed.

(** ** A tick is a run of the loop thread *)

Lemma run_app (es1 es2 : list event) (s : sys) :
  run s (es1 ++ es2)
  = '(s1, out1) ← run s es1; '(s2, out2) ← run s1 es2; Ok (s2, out1 ++ out2).
Proof.
  revert s. induction es1 as [|e es1 IH]; intros s; cbn.
  - by destruct (run s es2) as [[s2 out2]|].
  - destruct (sys_step s e) as [[s' out]|]; cbn; [|done].
    rewrite IH. destruct (run s' es1) as [[s1 out1]|]; cbn; [|done].
    destruct (run s1 es2) as [[s2 out2]|]; cbn; [|done].
    by rewrite app_assoc.
Qed.

Lemma pose_phase_run (self : Chart) (l : Locals) (sh : bool) :
  run (at_line self l AtPoseCheck sh)
    (replicate (1 + (if pose_updated self then 1 else 0)) step)
  = (λ r, (at_line r.1.1 r.1.2 AtPathCheck sh, r.2)) <$> pose_phase self l.
Proof.
  unfold pose_phase. cbn -[pose_get_step].
  destruct (pose_updated self); cbn -[pose_get_step]; [|reflexivity].
  destruct (pose_get_step self l) as [[[self1 l1] out1]|]; cbn; [|reflexivity].
  by rewrite app_nil_r.
Qed.

Lemma path_phase_run (self : Chart) (l : Locals) (sh : bool) :
  run (at_line self l AtPathCheck sh)
    (replicate (1 + (if path_updated self then 1 else 0)) step)
  = Ok (at_line (path_phase self l).1.1 (path_phase self l).1.2 AtTlCheck sh,
        (path_phase self l).2).
Proof.
  unfold path_phase. cbn -[path_get_step].
  destruct (path_updated self); cbn -[path_get_step]; [|reflexivity].
  destruct (path_get_step self l) as [[self1 l1] out1]; cbn.
  by rewrite app_nil_r.
Qed.

Lemma tl_phase_run (self : Chart) (l : Locals) (sh : bool) :
  run (at_line self l AtTlCheck sh)
    (replicate (1 + (if traffic_lights self is Some _ then 1 else 0)) step)
  = (λ r, (at_line self r.1 AtRedraw sh, r.2)) <$> tl_phase self l.
Proof.
  unfold tl_phase. cbn -[tl_get_step].
  destruct (traffic_lights self) eqn:E; cbn -[tl_get_step]; [|reflexivity].
  destruct (tl_get_step self l) as [[l1 out1]|]; cbn; [|reflexivity].
  by rewrite app_nil_r.
Qed.

Lemma redraw_run (self : Chart) (l : Locals) (sh : bool) :
  run (at_line self l AtRedraw sh) [step]
  = Ok (at_line self (redraw l).1 AtLoopHead sh, (redraw l).2).
Proof. cbn -[redraw]. destruct (redraw l) as [l1 out1]; cbn. by rewrite app_nil_r. Qed.

Lemma path_phase_keeps_lights (self : Chart) (l : Locals) :
  traffic_lights (path_phase self l).1.1 = traffic_lights self.
Proof.
  pose proof (path_phase_keeps self l) as H.
  destruct (path_phase self l) as [[self2 l2] out2]. by destruct H as (_ & _ & H & _).
Qed.

Lemma pose_phase_keeps (self self1 : Chart) (l l1 : Locals) (out1 : list call) :
  pose_phase self l = Ok (self1, l1, out1) →
  path_updated self1 = path_updated self ∧ traffic_lights self1 = traffic_lights self.
Proof.
  unfold pose_phase, pose_get_step, get_pose. destruct (pose_updated self).
  - destruct (pose_render (pose self) l) as [[l' o]|]; [|done]. by intros [= <- <- <-].
  - by intros [= <- <- <-].
Qed.

(** With no callback in between, the steps of the loop thread from line 111
    to line 109 make the calls of [tick] and leave its fields and locals. *)
Lemma tick_is_run (self : Chart) (l : Locals) (sh : bool) :
  ∃ n, n ≤ tick_steps self
       ∧ run (at_line self l AtPoseCheck sh) (replicate n step)
         = (λ r, (at_line r.1.1 r.1.2 AtLoopHead sh, r.2)) <$> tick self l.
Proof.
  unfold tick, tick_updates.
  destruct (pose_phase self l) as [[[self1 l1] out1]|x] eqn:E1; cbn.
  - destruct (pose_phase_keeps _ _ _ _ _ E1) as [Hpath Htl].
    exists (tick_steps self). split; [done|].
    replace (tick_steps self)
      with ((1 + (if pose_updated self then 1 else 0))
            + ((1 + (if path_updated self1 then 1 else 0))
               + ((1 + (if traffic_lights (path_phase self1 l1).1.1 is Some _ then 1 else 0))
                  + 1)))
      by (rewrite path_phase_keeps_lights, Hpath, Htl; unfold tick_steps; lia).
    rewrite (replicate_add (1 + (if pose_updated self then 1 else 0))), run_app.
    rewrite pose_phase_run, E1. cbn [fmap result_fmap mbind result_bind fst snd].
    rewrite (replicate_add (1 + (if path_updated self1 then 1 else 0))), run_app.
    rewrite path_phase_run. cbn [mbind result_bind].
    destruct (path_phase self1 l1) as [[self2 l2] out2]. cbn [fst snd].
    rewrite (replicate_add (1 + (if traffic_lights self2 is Some _ then 1 else 0))), run_app.
    rewrite tl_phase_run.
    destruct (tl_phase self2 l2) as [[l3 out3]|]; cbn [fmap result_fmap mbind result_bind fst snd];
      [|reflexivity].
    change (replicate 1 step) with [step]. rewrite redraw_run.
    destruct (redraw l3) as [l4 out4]. cbn. by rewrite <- !app_assoc.
  - exists (1 + (if pose_updated self then 1 else 0)). split; [unfold tick_steps; lia|].
    by rewrite pose_phase_run, E1.
Qed.

(** ** Reachable states *)

(** Right after the track callback nothing is pending. *)
Lemma track_only_nothing_pending (lane : Msg.Lane) (self : Chart) :
  waypoints_cb Chart__init__ lane = Ok self → nothing_pending self.
Proof. cbn. by intros [= <-]. Qed.

Lemma sys_step_consistent (s s' : sys) (e : event) (out : list call) :
  pose_consistent (chart s) → sys_step s e = Ok (s', out) → pose_consistent (chart s').
Proof.
  intros Hc. destruct e as [m| | |lane]; cbn [sys_step].
  - intros [= <- <-]. by apply deliver_quiet_consistent.
  - intros Hstep. destruct (decide (at_pc s = AtPoseGet)) as [Hget|Hother].
    + destruct (loop_step_at_get s s' out Hget Hstep) as (_ & Hu & _).
      intros Hu'. congruence.
    + destruct (loop_step_keeps_pose s s' out Hother Hstep) as (Hp & Hu & _).
      unfold pose_consistent. rewrite Hp, Hu. exact Hc.
  - by intros [= <- <-].
  - by intros [= <- <-].
Qed.

(** Every state the node reaches has a pose behind a pending pose flag, so
    the unpacking of line 112 never fails. *)
Lemma reachable_consistent (es : list event) (s : sys) (out : list call) :
  run boot es = Ok (s, out) → pose_consistent (chart s).
Proof.
  assert (∀ s0 out0, pose_consistent (chart s0) → run s0 es = Ok (s, out0) →
                     pose_consistent (chart s)) as H.
  { induction es as [|e es IH]; intros s0 out0 Hc; cbn [run].
    - by intros [= <- <-].
    - destruct (sys_step s0 e) as [[s1 out1]|] eqn:E1; [|done]. cbn.
      destruct (run s1 es) as [[s2 out2]|] eqn:E2; [|done]. cbn.
      intros [= <- <-]. apply (IH s1 out2); [|exact E2].
      by eapply sys_step_consistent. }
  apply (H boot out). intros Hu. discriminate Hu.
Qed.

(** * Properties of the rest of the node *)

(** ** Callbacks on different stores *)

(** X1.  Each callback writes its own store only: two deliveries on
    different topics give the same fields in either order, the track
    assertion included; and on the pose, path and signal topics a later
    delivery replaces an earlier one outright, with nothing queued. *)
Theorem deliveries_commute_or_overwrite (self : Chart) (m1 m2 : message) :
  (topic_of m1 ≠ topic_of m2 →
   deliver_quiet (deliver_quiet self m1) m2 = deliver_quiet (deliver_quiet self m2) m1)
  ∧ (topic_of m1 = topic_of m2 → is_track_msg m2 = false →
     deliver_quiet (deliver_quiet self m1) m2 = deliver_quiet self m2).
Proof.
  split.
  - intros Hne. destruct m1, m2; try (by destruct Hne);
      unfold deliver_quiet; cbn; unfold waypoints_cb; cbn;
      by destruct (length (waypoints self) =? 0).
  - intros Heq Hnt. by destruct m1, m2.
Qed.

Lemma deliveries_commute_or_overwrite_witness :
  deliver_quiet (deliver_quiet Chart__init__ (pose_msg (pose_at 1 1))) (track_msg track3)
  = deliver_quiet (deliver_quiet Chart__init__ (track_msg track3)) (pose_msg (pose_at 1 1))
  ∧ deliver_quiet (deliver_quiet ready_chart (pose_msg (pose_at 1 1))) (pose_msg (pose_at 2 2))
    = deliver_quiet ready_chart (pose_msg (pose_at 2 2)).
Proof.
  split.
  - apply (deliveries_commute_or_overwrite Chart__init__
             (pose_msg (pose_at 1 1)) (track_msg track3)). discriminate.
  - apply (deliveries_commute_or_overwrite ready_chart
             (pose_msg (pose_at 1 1)) (pose_msg (pose_at 2 2))); reflexivity.
Defined.

(** ** The track once it is there *)

Lemma deliver_quiet_keeps_track (self : Chart) (m : message) :
  waypoints self ≠ [] →
  waypoints (deliver_quiet self m) = waypoints self
  ∧ subscribers (deliver_quiet self m) = subscribers self.
Proof.
  intros Hne. destruct m as [msg|msg|msg|msg]; try done.
  unfold deliver_quiet. cbn. by rewrite waypoints_cb_again.
Qed.

(** The loop thread writes neither the track, nor the subscriptions, nor
    the traffic lights. *)
Lemma loop_step_keeps_track (s s' : sys) (out : list call) :
  loop_step s = Ok (s', out) →
  waypoints (chart s') = waypoints (chart s)
  ∧ subscribers (chart s') = subscribers (chart s)
  ∧ traffic_lights (chart s') = traffic_lights (chart s)
  ∧ is_shutdown s' = is_shutdown s.
Proof.
  unfold loop_step. intros H. destruct (at_pc s) eqn:E.
  - destruct (is_shutdown s) eqn:Hs; [by injection H as <- <-|].
    destruct (length (get_waypoints (chart s)) =? 0); by injection H as <- <-.
  - destruct (is_shutdown s) eqn:Hs; by injection H as <- <-.
  - destruct (pose_updated (chart s)); by injection H as <- <-.
  - unfold pose_get_step, get_pose in H.
    destruct (pose_render (pose (chart s)) (locals s)) as [[l' o]|]; [|done].
    by injection H as <- <-.
  - destruct (path_updated (chart s)); by injection H as <- <-.
  - unfold path_get_step, get_path in H.
    destruct (path_render (path (chart s)) (locals s)) as [l' o].
    by injection H as <- <-.
  - destruct (traffic_lights (chart s)) eqn:Ht; by injection H as <- <-.
  - destruct (tl_get_step (chart s) (locals s)) as [[l' o]|]; [|done].
    by injection H as <- <-.
  - destruct (redraw (locals s)) as [l' o]. by injection H as <- <-.
  - by injection H as <- <-.
Qed.

(** The track callback as its two steps: the assertion of line 159, then
    the locked part. *)
Lemma waypoints_cb_two_steps (self : Chart) (msg : Msg.Lane) :
  waypoints_cb self msg
  = if length (waypoints self) =? 0 then Ok (waypoints_cb_locked self msg)
    else Raise AssertionError.
Proof. reflexivity. Qed.

Lemma run_keeps_track (es : list event) (s s' : sys) (out : list call) :
  waypoints (chart s) ≠ [] → forallb whole es = true → run s es = Ok (s', out) →
  waypoints (chart s') = waypoints (chart s)
  ∧ subscribers (chart s') = subscribers (chart s).
Proof.
  revert s out. induction es as [|e es IH]; intros s out Hne Hes; cbn [run].
  - by intros [= <- <-].
  - cbn in Hes. apply andb_prop in Hes as [He Hes].
    destruct (sys_step s e) as [[s1 out1]|] eqn:E1; [|done]. cbn.
    destruct (run s1 es) as [[s2 out2]|] eqn:E2; [|done]. cbn.
    intros [= <- <-].
    assert (waypoints (chart s1) = waypoints (chart s)
            ∧ subscribers (chart s1) = subscribers (chart s)) as [Hw Hs].
    { destruct e as [m| | |lane]; cbn in E1; [| | |done].
      - injection E1 as <- <-. by apply deliver_quiet_keeps_track.
      - by destruct (loop_step_keeps_track s s1 out1 E1) as (? & ? & _).
      - by injection E1 as <- <-. }
    destruct (IH s1 out2) as [Hw' Hs']; [by rewrite Hw|exact Hes|exact E2|].
    split; congruence.
Qed.

(** X2.  A stored non-empty track is changed only by a track callback that
    passed its assertion before the track was stored.  In a schedule in
    which every track callback runs from its assertion to its end without
    being overtaken, callbacks (further track messages included, which the
    assertion rejects), loop steps and shutdown leave the track and the
    subscriptions as they are; the locked part of a track callback that was
    overtaken after line 159 replaces the track, whatever is stored, and
    subscribes the three callbacks once more. *)
Theorem track_kept_unless_overtaken (es : list event) (s s' : sys) (out : list call)
    (late : Msg.Lane) :
  waypoints (chart s) ≠ [] → forallb whole es = true → run s es = Ok (s', out) →
  waypoints (chart s') = waypoints (chart s)
  ∧ subscribers (chart s') = subscribers (chart s)
  ∧ ∃ s'', sys_step s' (store_track late) = Ok (s'', [])
           ∧ waypoints (chart s'') = Msg.waypoints late
           ∧ subscribers (chart s'') = subscribers (chart s) ++ update_topics.
Proof.
  intros Hne Hes Hrun.
  destruct (run_keeps_track es s s' out Hne Hes Hrun) as [Hw Hs].
  split; [exact Hw|]. split; [exact Hs|].
  eexists. split; [reflexivity|]. cbn. by rewrite Hs.
Qed.

Lemma track_kept_unless_overtaken_witness :
  let s' := at_line (path_cb ready_chart track3) init_locals AtPathGet false in
  waypoints (chart s') = Msg.waypoints track3
  ∧ subscribers (chart s')
    = [base_waypoints; current_pose; final_waypoints; vehicle_traffic_lights]
  ∧ ∃ s'', sys_step s' (store_track empty_lane) = Ok (s'', [])
           ∧ waypoints (chart s'') = []
           ∧ subscribers (chart s'')
             = [base_waypoints; current_pose; final_waypoints; vehicle_traffic_lights]
               ++ update_topics.
Proof.
  apply (track_kept_unless_overtaken
           [callback (track_msg empty_lane); step; callback (path_msg track3); step]
           (at_line ready_chart init_locals AtPoseCheck false)
           (at_line (path_cb ready_chart track3) init_locals AtPathGet false)
           [] empty_lane).
  - discriminate.
  - reflexivity.
  - reflexivity.
Defined.

(** ** What a tick leaves behind *)

Lemma pose_phase_chart (self self1 : Chart) (l l1 : Locals) (out1 : list call) :
  pose_phase self l = Ok (self1, l1, out1) → self1 = with_pose (pose self) false self.
Proof.
  unfold pose_phase, pose_updated, pose_get_step, get_pose.
  destruct (is_pose_updated self) eqn:Hu.
  - destruct (pose_render (pose self) l) as [[l' o]|]; [|done]. by intros [= <- <- <-].
  - intros [= <- <- <-]. by rewrite with_pose_same.
Qed.

Lemma path_phase_chart (self : Chart) (l : Locals) :
  (path_phase self l).1.1 = with_path (path self) false self.
Proof.
  unfold path_phase, path_updated, path_get_step, get_path.
  destruct (is_path_updated self) eqn:Hu.
  - by destruct (path_render (path self) l).
  - cbn. by rewrite with_path_same.
Qed.

Lemma tick_leaves (self self' : Chart) (l l' : Locals) (out : list call) :
  tick self l = Ok (self', l', out) →
  self' = drained self ∧ update_chart l' = false.
Proof.
  unfold tick. intros H.
  destruct (tick_updates self l) as [[[self2 l3] out0]|] eqn:E; [|done].
  apply tick_updates_inv in E as (self1 & l1 & out1 & l2 & out2 & out3 & H1 & H2 & H3 & ->).
  apply pose_phase_chart in H1. pose proof (path_phase_chart self1 l1) as Hc.
  rewrite H2 in Hc. cbn in Hc, H. unfold redraw in H.
  destruct (update_chart l3) eqn:Hu; injection H as <- <- <-.
  - split; [by subst|reflexivity].
  - split; [by subst|exact Hu].
Qed.

(** X3.  A tick that goes through clears both update flags and changes no
    other field: the track, the stored pose, path and lights and the
    subscriptions are as before; and it leaves [update_chart] false for
    the next tick. *)
Theorem tick_drains (self self' : Chart) (l l' : Locals) (out : list call) :
  tick self l = Ok (self', l', out) →
  self' = drained self
  ∧ waypoints self' = waypoints self
  ∧ pose self' = pose self
  ∧ path self' = path self
  ∧ traffic_lights self' = traffic_lights self
  ∧ subscribers self' = subscribers self
  ∧ is_pose_updated self' = false
  ∧ is_path_updated self' = false
  ∧ update_chart l' = false.
Proof.
  intros H. destruct (tick_leaves _ _ _ _ _ H) as [-> Hu]. by repeat split.
Qed.

Lemma tick_drains_witness :
  let self := pose_cb ready_chart (pose_at 1 1) in
  let self' := snd (get_pose self) in
  self' = drained self
  ∧ waypoints self' = waypoints self
  ∧ pose self' = pose self
  ∧ path self' = path self
  ∧ traffic_lights self' = traffic_lights self
  ∧ subscribers self' = subscribers self
  ∧ is_pose_updated self' = false
  ∧ is_path_updated self' = false
  ∧ update_chart (set_update_chart false (set_first_iter false init_locals)) = false.
Proof.
  apply (tick_drains (pose_cb ready_chart (pose_at 1 1)) _ init_locals _
           [ax_plot car_dot (scalar 1) (scalar 1) "ko" None;
            canvas_draw; plt_pause pause_interval; rate_sleep]).
  reflexivity.
Defined.

(** X4.  After a tick that went through, and while no traffic lights are
    stored, ticks with no delivery in between do nothing but sleep: what was
    delivered is drawn by one tick, once. *)
Theorem idle_after_tick (self self' : Chart) (l l' : Locals) (out : list call) (n : nat) :
  tick self l = Ok (self', l', out) → traffic_lights self = None →
  render_loop self' l' (replicate n ticks) = Ok (self', l', replicate n [rate_sleep]).
Proof.
  intros Ht Htl. destruct (tick_leaves _ _ _ _ _ Ht) as [-> Hu].
  apply quiet_ticks_after_first; [|exact Hu]. by repeat split.
Qed.

Lemma idle_after_tick_witness :
  render_loop (drained (pose_cb ready_chart (pose_at 1 1)))
    (set_update_chart false (set_first_iter false init_locals)) [ticks; ticks]
  = Ok (drained (pose_cb ready_chart (pose_at 1 1)),
        set_update_chart false (set_first_iter false init_locals),
        [[rate_sleep]; [rate_sleep]]).
Proof.
  apply (idle_after_tick (pose_cb ready_chart (pose_at 1 1)) _ init_locals _
           [ax_plot car_dot (scalar 1) (scalar 1) "ko" None;
            canvas_draw; plt_pause pause_interval; rate_sleep] 2);
    reflexivity.
Defined.

(** ** A light whose state is no index of [tl_marker] *)

Lemma tuple_index_out_of_range (st : N) :
  (4 ≤ st)%N → tuple_index tl_marker st = Raise IndexError.
Proof.
  intros Hst. unfold tuple_index.
  rewrite lookup_ge_None_2; [reflexivity|]. cbn. lia.
Qed.

Lemma tl_iter_raised (tls : list Light) (e : exn) :
  foldl tl_iter (Raise e) tls = Raise e.
Proof. induction tls as [|tl tls IH]; [reflexivity | exact IH]. Qed.

Lemma tl_iter_out_of_range (tls : list Light)
    (acc : list float * list float * list string) :
  Exists (λ tl : Light, (4 ≤ tl.2)%N) tls →
  foldl tl_iter (Ok acc) tls = Raise IndexError.
Proof.
  intros Hex. revert acc. induction Hex as [tl tls Hbad|tl tls _ IH]; intros acc.
  - cbn [foldl]. unfold tl_iter at 2. destruct acc as [[tl_x tl_y] tl_c]. cbn.
    rewrite (tuple_index_out_of_range _ Hbad). cbn. apply tl_iter_raised.
  - cbn [foldl]. unfold tl_iter at 2. destruct acc as [[tl_x tl_y] tl_c]. cbn.
    destruct (decide (tl.2 < 4)%N) as [Hok|Hbad].
    + destruct (tuple_index_marker _ Hok) as [-> _]. cbn. apply IH.
    + rewrite tuple_index_out_of_range by lia. cbn. apply tl_iter_raised.
Qed.

(** X5.  A stored snapshot in which some light has a state of 4 or more
    stops every tick with IndexError: [tl_marker] has four entries and
    line 141 indexes it with the state as delivered. *)
Theorem state_out_of_range_stops_tick (self : Chart) (l : Locals) (tls : list Light) :
  pose_consistent self → traffic_lights self = Some tls →
  Exists (λ tl : Light, (4 ≤ tl.2)%N) tls →
  tick self l = Raise IndexError.
Proof.
  intros Hc Htl Hbad.
  destruct (pose_phase_ok self l Hc) as (self1 & l1 & out1 & H1 & _ & Htl1 & _).
  pose proof (path_phase_keeps self1 l1) as H2.
  unfold tick, tick_updates. rewrite H1. cbn.
  destruct (path_phase self1 l1) as [[self2 l2] out2].
  destruct H2 as (_ & _ & Htl2 & _).
  unfold tl_phase, tl_get_step, get_traffic_lights. rewrite Htl2, Htl1, Htl.
  unfold tl_render. by rewrite (tl_iter_out_of_range _ _ Hbad).
Qed.

Lemma state_out_of_range_stops_tick_witness :
  tick (traffic_lights_cb ready_chart (lights_at [light_at 5 5 2; light_at 6 6 4]))
    init_locals
  = Raise IndexError.
Proof.
  apply (state_out_of_range_stops_tick _ _ [(5%float, 5%float, 2%N); (6%float, 6%float, 4%N)]).
  - intros H. discriminate H.
  - reflexivity.
  - apply Exists_cons_tl, Exists_cons_hd. cbn. lia.
Defined.

(** ** The pose and the path on the chart *)

Lemma path_iter_fold_locals (path : list Msg.Waypoint)
    (acc : list float * list float * Locals * list call) :
  let r := foldl path_iter acc path in
  first_iter r.1.2 = first_iter acc.1.2
  ∧ first_tl_iter r.1.2 = first_tl_iter acc.1.2
  ∧ (update_chart acc.1.2 = true → update_chart r.1.2 = true)
  ∧ (path ≠ [] → update_chart r.1.2 = true ∧ first_path_iter r.1.2 = false)
  ∧ (first_path_iter acc.1.2 = false → first_path_iter r.1.2 = false).
Proof.
  revert acc. induction path as [|wp path IH]; intros acc; cbn [foldl].
  - cbn zeta. by repeat split.
  - specialize (IH (path_iter acc wp)). cbn zeta in *.
    destruct IH as (Hf & Ht & Hu & Hne & Hp).
    assert (first_iter (path_iter acc wp).1.2 = first_iter acc.1.2
            ∧ first_tl_iter (path_iter acc wp).1.2 = first_tl_iter acc.1.2
            ∧ update_chart (path_iter acc wp).1.2 = true
            ∧ first_path_iter (path_iter acc wp).1.2 = false) as (Hf1 & Ht1 & Hu1 & Hp1).
    { destruct acc as [[[xs ys] l] out]. cbn.
      by destruct (first_path_iter l) eqn:E. }
    repeat split; try congruence; auto.
Qed.

Lemma path_phase_locals (self : Chart) (l : Locals) :
  let l2 := (path_phase self l).1.2 in
  first_iter l2 = first_iter l
  ∧ first_tl_iter l2 = first_tl_iter l
  ∧ (update_chart l = true → update_chart l2 = true).
Proof.
  unfold path_phase, path_get_step, get_path, path_render.
  destruct (path_updated self); [|by repeat split].
  pose proof (path_iter_fold_locals (path self) ([], [], l, [])) as H.
  destruct (foldl path_iter ([], [], l, []) (path self)) as [[[xs ys] l'] out].
  cbn in *. by destruct H as (? & ? & ? & _).
Qed.

Lemma tl_phase_ok (self : Chart) (l : Locals) :
  lights_ok self →
  ∃ l3 out3, tl_phase self l = Ok (l3, out3)
             ∧ first_iter l3 = first_iter l
             ∧ (update_chart l = true → update_chart l3 = true).
Proof.
  intros Hok. unfold tl_phase, tl_get_step, get_traffic_lights.
  destruct (traffic_lights self) as [tls|] eqn:Htl; [|by eexists _, _].
  destruct (Hok tls Htl) as [Hne Hv].
  destruct tls as [|tl0 rest]; [done|].
  destruct (tl_render_valid tl0 rest l Hv) as (out & -> & _).
  by eexists _, _.
Qed.

(** X6.  A delivered pose is on the chart after the next tick: with lights
    absent or showable, the tick that follows [pose_cb] goes through, finds
    [update_chart] true, hands the delivered coordinates to the car dot (the
    plot the first time, its data calls afterwards), draws once and leaves
    the pose stored with the flag cleared. *)
Theorem tick_shows_pose (self : Chart) (l : Locals) (msg : Msg.PoseStamped) :
  lights_ok self →
  let x := Msg.x (Msg.pose_position msg) in
  let y := Msg.y (Msg.pose_position msg) in
  ∃ self' l' out,
    tick (pose_cb self msg) l = Ok (self', l', out)
    ∧ changed (pose_cb self msg) l = Ok true
    ∧ pose self' = Some (x, y)
    ∧ is_pose_updated self' = false
    ∧ first_iter l' = false
    ∧ pose_shown x y (first_iter l) out
    ∧ count_calls is_canvas_draw out = 1.
Proof.
  intros Hok x y.
  set (self0 := pose_cb self msg).
  set (l1 := set_update_chart true (set_first_iter false l)).
  set (out1 := if first_iter l then [ax_plot car_dot (scalar x) (scalar y) "ko" None]
               else [set_ydata car_dot (scalar y); set_xdata car_dot (scalar x)]).
  set (self1 := with_pose (Some (x, y)) false self0).
  assert (pose_phase self0 l = Ok (self1, l1, out1)) as H1.
  { unfold pose_phase, pose_get_step. cbn. subst l1 out1.
    destruct (first_iter l) eqn:E; cbn; [reflexivity|].
    do 3 f_equal. destruct l; cbn in *; by subst. }
  pose proof (path_phase_locals self1 l1) as (Hf2 & _ & Hu2).
  pose proof (path_phase_artist self1 l1) as A2.
  pose proof (path_phase_chart self1 l1) as C2.
  destruct (path_phase self1 l1) as [[self2 l2] out2] eqn:E2. cbn in Hf2, Hu2, A2, C2.
  assert (lights_ok self2) as Hok2 by (by subst self2).
  destruct (tl_phase_ok self2 l2 Hok2) as (l3 & out3 & H3 & Hf3 & Hu3).
  assert (update_chart l3 = true) as Hu by (apply Hu3, Hu2; reflexivity).
  assert (tick_updates self0 l = Ok (self2, l3, out1 ++ out2 ++ out3)) as Hup.
  { unfold tick_updates. rewrite H1. cbn. rewrite E2, H3. reflexivity. }
  exists self2, (set_update_chart false l3),
    ((out1 ++ out2 ++ out3) ++ [canvas_draw; plt_pause pause_interval; rate_sleep]).
  repeat split.
  - unfold tick. rewrite Hup. cbn. unfold redraw. by rewrite Hu.
  - unfold changed. rewrite Hup. cbn. by rewrite Hu.
  - by subst self2.
  - by subst self2.
  - cbn. rewrite Hf3, Hf2. reflexivity.
  - unfold pose_shown. subst out1. destruct (first_iter l).
    + apply elem_of_app. left. apply elem_of_app. left. apply list_elem_of_here.
    + split; apply elem_of_app; left; apply elem_of_app; left;
        [apply list_elem_of_here | apply list_elem_of_further, list_elem_of_here].
  - apply pose_phase_artist in H1. apply tl_phase_artist in H3.
    rewrite !count_calls_app.
    rewrite (count_calls_artist _ out1), (count_calls_artist _ out2),
      (count_calls_artist _ out3) by (assumption || by intros []).
    reflexivity.
Qed.

Lemma tick_shows_pose_witness :
  ∃ self' l' out,
    tick (pose_cb ready_chart (pose_at 0.5 0.5)) init_locals = Ok (self', l', out)
    ∧ changed (pose_cb ready_chart (pose_at 0.5 0.5)) init_locals = Ok true
    ∧ pose self' = Some (0.5%float, 0.5%float)
    ∧ is_pose_updated self' = false
    ∧ first_iter l' = false
    ∧ pose_shown 0.5 0.5 true out
    ∧ count_calls is_canvas_draw out = 1.
Proof.
  apply (tick_shows_pose ready_chart init_locals (pose_at 0.5 0.5)).
  intros tls H. discriminate H.
Defined.

Lemma line_data_app (a : artist) (cur : option data * option data) (cs1 cs2 : list call) :
  line_data a cur (cs1 ++ cs2) = line_data a (line_data a cur cs1) cs2.
Proof. apply foldl_app. Qed.

Lemma path_iter_data (acc : list float * list float * Locals * list call)
    (wp : Msg.Waypoint) (cur : option data * option data) :
  let r := path_iter acc wp in
  line_data path_line cur r.2 = (Some (seq r.1.1.1), Some (seq r.1.1.2)).
Proof.
  destruct acc as [[[xs ys] l] out]. cbn -[line_data].
  destruct (first_path_iter l); cbn -[line_data]; by rewrite line_data_app.
Qed.

Lemma path_iter_fold_data (path : list Msg.Waypoint)
    (acc : list float * list float * Locals * list call) (cur : option data * option data) :
  path ≠ [] →
  let r := foldl path_iter acc path in
  line_data path_line cur r.2 = (Some (seq r.1.1.1), Some (seq r.1.1.2)).
Proof.
  revert acc. induction path as [|wp path IH]; intros acc Hne; [done|].
  cbn [foldl]. destruct path as [|wp' path].
  - apply path_iter_data.
  - by apply IH.
Qed.

Lemma path_iter_fold_lists (path : list Msg.Waypoint)
    (acc : list float * list float * Locals * list call) :
  (foldl path_iter acc path).1.1.1 = acc.1.1.1 ++ ((Msg.x ∘ Msg.position) <$> path)
  ∧ (foldl path_iter acc path).1.1.2 = acc.1.1.2 ++ ((Msg.y ∘ Msg.position) <$> path).
Proof.
  revert acc. induction path as [|wp path IH]; intros acc; cbn [foldl].
  - cbn. by rewrite !app_nil_r.
  - destruct (IH (path_iter acc wp)) as [-> ->].
    destruct acc as [[[xs ys] l] out]. cbn.
    destruct (first_path_iter l); cbn; by rewrite <- !app_assoc.
Qed.

(** X7.  A delivered path with at least one waypoint is on the chart after
    the path block of the next tick: whatever the line held before, its x
    and y data are then the coordinates of all the waypoints, in order and
    of equal length; [update_chart] is true, the line exists, and the path
    stays stored with the flag cleared. *)
Theorem path_phase_shows_path (self : Chart) (l : Locals) (lane : Msg.Lane)
    (cur : option data * option data) :
  Msg.waypoints lane ≠ [] →
  let r := path_phase (path_cb self lane) l in
  let xs := (Msg.x ∘ Msg.position) <$> Msg.waypoints lane in
  let ys := (Msg.y ∘ Msg.position) <$> Msg.waypoints lane in
  r.1.1 = with_path (Msg.waypoints lane) false self
  ∧ update_chart r.1.2 = true
  ∧ first_path_iter r.1.2 = false
  ∧ line_data path_line cur r.2 = (Some (seq xs), Some (seq ys))
  ∧ length xs = length ys.
Proof.
  intros Hne r xs ys. subst r. unfold path_phase, path_get_step, get_path, path_render.
  cbn [path_updated path_cb with_path is_path_updated path].
  pose proof (path_iter_fold_locals (Msg.waypoints lane) ([], [], l, [])) as (_ & _ & _ & Hl & _).
  pose proof (path_iter_fold_data (Msg.waypoints lane) ([], [], l, []) cur Hne) as Hd.
  pose proof (path_iter_fold_lists (Msg.waypoints lane) ([], [], l, [])) as [Hx Hy].
  destruct (foldl path_iter ([], [], l, []) (Msg.waypoints lane)) as [[[xs' ys'] l'] out].
  cbn in *. destruct (Hl Hne) as [Hu Hp]. subst xs' ys'.
  repeat split; try done. subst xs ys. by rewrite !length_fmap.
Qed.

Lemma path_phase_shows_path_witness :
  let r := path_phase (path_cb ready_chart track3) init_locals in
  r.1.1 = with_path (Msg.waypoints track3) false ready_chart
  ∧ update_chart r.1.2 = true
  ∧ first_path_iter r.1.2 = false
  ∧ line_data path_line (None, None) r.2
    = (Some (seq [0; 1; 2]%float), Some (seq [0; 1; 2]%float))
  ∧ length [0; 1; 2]%float = length [0; 1; 2]%float.
Proof.
  apply (path_phase_shows_path ready_chart init_locals track3 (None, None)).
  discriminate.
Defined.

(** X8.  A delivered path with no waypoint is taken without a trace: with
    nothing else pending, the next tick clears the flag, makes no call on
    the path line and does not redraw, so the line drawn for the previous
    path stays on the chart while the store holds the empty path. *)
Theorem empty_path_leaves_chart (self : Chart) (l : Locals) (lane : Msg.Lane) :
  Msg.waypoints lane = [] → nothing_pending self → update_chart l = false →
  tick (path_cb self lane) l = Ok (with_path [] false self, l, [rate_sleep])
  ∧ changed (path_cb self lane) l = Ok false.
Proof.
  intros Hempty (Hpose & _ & Htl) Hu.
  destruct lane as [wps]. cbn in Hempty. subst wps.
  assert (tick_updates (path_cb self {| Msg.waypoints := [] |}) l
          = Ok (with_path [] false self, l, [])) as Hup.
  { unfold tick_updates, pose_phase, path_phase, tl_phase, pose_updated, path_updated,
      path_get_step, get_path, path_render.
    cbn. rewrite Hpose. cbn. rewrite Htl. reflexivity. }
  split.
  - unfold tick. rewrite Hup. cbn. unfold redraw. by rewrite Hu.
  - unfold changed. rewrite Hup. cbn. by rewrite Hu.
Qed.

Lemma empty_path_leaves_chart_witness :
  tick (path_cb ready_chart empty_lane) (set_update_chart false init_locals)
  = Ok (with_path [] false ready_chart, set_update_chart false init_locals, [rate_sleep])
  ∧ changed (path_cb ready_chart empty_lane) (set_update_chart false init_locals) = Ok false.
Proof.
  apply (empty_path_leaves_chart ready_chart (set_update_chart false init_locals) empty_lane);
    by repeat split.
Defined.

(** ** Waiting for the track *)

Lemma keeps_waiting_step (s : sys) (e : event) :
  at_pc s = AtAwaitTrack → is_shutdown s = false → waypoints (chart s) = [] →
  keeps_waiting e = true →
  ∃ s', sys_step s e = Ok (s', if e is step then [rate_sleep] else [])
        ∧ at_pc s' = AtAwaitTrack ∧ is_shutdown s' = false ∧ waypoints (chart s') = [].
Proof.
  intros Hpc Hsh Hw He. destruct e as [m| | |lane]; [| |done|].
  - eexists. split; [reflexivity|]. cbn. repeat split; try done.
    destruct m as [msg|msg|msg|msg]; try done.
    unfold deliver_quiet. cbn. unfold waypoints_cb. rewrite Hw. cbn.
    cbn in He. by destruct (Msg.waypoints msg).
  - exists s. cbn. unfold loop_step, get_waypoints. by rewrite Hpc, Hsh, Hw.
  - eexists. split; [reflexivity|]. cbn. repeat split; try done.
    cbn in He. by destruct (Msg.waypoints lane).
Qed.

(** X9.  Until a track message with waypoints arrives, and unless a
    shutdown is requested, the loop stays in its wait: whatever pose, path,
    signal or empty track messages are delivered, every loop step only
    sleeps and nothing is plotted or drawn. *)
Theorem nothing_charted_before_track (es : list event) :
  forallb keeps_waiting es = true →
  ∃ s, run boot es = Ok (s, replicate (count_steps es) rate_sleep)
       ∧ at_pc s = AtAwaitTrack
       ∧ waypoints (chart s) = [].
Proof.
  enough (∀ s0, at_pc s0 = AtAwaitTrack → is_shutdown s0 = false →
                waypoints (chart s0) = [] → forallb keeps_waiting es = true →
                ∃ s, run s0 es = Ok (s, replicate (count_steps es) rate_sleep)
                     ∧ at_pc s = AtAwaitTrack ∧ waypoints (chart s) = []) as H
    by (by apply H).
  induction es as [|e es IH]; intros s0 Hpc Hsh Hw Hes.
  - by exists s0.
  - cbn in Hes. apply andb_prop in Hes as [He Hes].
    destruct (keeps_waiting_step s0 e Hpc Hsh Hw He) as (s1 & Hstep & Hpc1 & Hsh1 & Hw1).
    destruct (IH s1 Hpc1 Hsh1 Hw1 Hes) as (s & Hrun & Hpc' & Hw').
    exists s. cbn [run]. rewrite Hstep. cbn. rewrite Hrun. cbn.
    split; [|done]. by destruct e.
Qed.

Lemma nothing_charted_before_track_witness :
  ∃ s, run boot [step; callback (pose_msg (pose_at 1 1)); step;
                 callback (track_msg empty_lane); step]
       = Ok (s, [rate_sleep; rate_sleep; rate_sleep])
       ∧ at_pc s = AtAwaitTrack
       ∧ waypoints (chart s) = [].
Proof.
  apply (nothing_charted_before_track
           [step; callback (pose_msg (pose_at 1 1)); step;
            callback (track_msg empty_lane); step]).
  reflexivity.
Defined.

Lemma foldl_snoc_fmap {A B} (f : A → B) (l : list A) (acc : list B) :
  foldl (λ acc a, acc ++ [f a]) acc l = acc ++ (f <$> l).
Proof.
  revert acc. induction l as [|a l IH]; intros acc; cbn.
  - by rewrite app_nil_r.
  - by rewrite IH, <- app_assoc.
Qed.

(** X10.  The step of the wait that finds a track with waypoints sleeps
    once more, plots the track as one blue line through all the waypoints in
    order (x and y lists of the track's length), shows the figure and enters
    the render loop with fresh locals, [update_chart] true among them. *)
Theorem track_drawn_on_arrival (s : sys) :
  at_pc s = AtAwaitTrack → is_shutdown s = false → waypoints (chart s) ≠ [] →
  let xs := (Msg.x ∘ Msg.position) <$> waypoints (chart s) in
  let ys := (Msg.y ∘ Msg.position) <$> waypoints (chart s) in
  loop_step s
  = Ok (sys_at s (chart s) init_locals AtLoopHead,
        [rate_sleep; ax_plot track_line (seq xs) (seq ys) "b" None; plt_show])
  ∧ length xs = length (waypoints (chart s))
  ∧ length ys = length (waypoints (chart s)).
Proof.
  intros Hpc Hsh Hne xs ys. unfold loop_step, get_waypoints, draw_track.
  rewrite Hpc, Hsh. destruct (waypoints (chart s)) as [|wp wps] eqn:E; [done|].
  cbn [length Nat.eqb]. rewrite !(foldl_snoc_fmap _ (wp :: wps) []).
  subst xs ys. by rewrite !length_fmap.
Qed.

Lemma track_drawn_on_arrival_witness :
  loop_step (at_line ready_chart init_locals AtAwaitTrack false)
  = Ok (at_line ready_chart init_locals AtLoopHead false,
        [rate_sleep;
         ax_plot track_line (seq [0; 1; 2]%float) (seq [0; 1; 2]%float) "b" None;
         plt_show])
  ∧ length [0; 1; 2]%float = 3
  ∧ length [0; 1; 2]%float = 3.
Proof.
  apply (track_drawn_on_arrival (at_line ready_chart init_locals AtAwaitTrack false));
    [reflexivity | reflexivity | discriminate].
Defined.

(** ** Shutdown *)

Lemma loop_step_towards_exit (s s' : sys) (out : list call) :
  is_shutdown s = true → loop_step s = Ok (s', out) →
  is_shutdown s' = true
  ∧ (steps_to_exit (at_pc s') < steps_to_exit (at_pc s)
     ∨ (at_pc s = Exited ∧ at_pc s' = Exited ∧ out = [])).
Proof.
  intros Hsh H. destruct (loop_step_keeps_track s s' out H) as (_ & _ & _ & Hsh').
  split; [congruence|]. unfold loop_step in H. rewrite Hsh in H.
  destruct (at_pc s) eqn:E.
  - injection H as <- <-. left. cbn. lia.
  - injection H as <- <-. left. cbn. lia.
  - destruct (pose_updated (chart s)); injection H as <- <-; left; cbn; lia.
  - destruct (pose_get_step (chart s) (locals s)) as [[[self' l'] o]|]; [|done].
    injection H as <- <-. left. cbn. lia.
  - destruct (path_updated (chart s)); injection H as <- <-; left; cbn; lia.
  - destruct (path_get_step (chart s) (locals s)) as [[self' l'] o].
    injection H as <- <-. left. cbn. lia.
  - destruct (traffic_lights (chart s)); injection H as <- <-; left; cbn; lia.
  - destruct (tl_get_step (chart s) (locals s)) as [[l' o]|]; [|done].
    injection H as <- <-. left. cbn. lia.
  - destruct (redraw (locals s)) as [l' o]. injection H as <- <-. left. cbn. lia.
  - injection H as <- <-. right. by rewrite E.
Qed.

Lemma exited_stays_silent (es : list event) (s : sys) :
  at_pc s = Exited → ∃ s', run s es = Ok (s', []) ∧ at_pc s' = Exited.
Proof.
  revert s. induction es as [|e es IH]; intros s Hpc; [by exists s|].
  cbn [run]. destruct e as [m| | |lane]; cbn [sys_step].
  - destruct (IH {| chart := deliver_quiet (chart s) m; locals := locals s;
                    at_pc := at_pc s; is_shutdown := is_shutdown s |} Hpc)
      as (s' & Hrun & Hpc').
    exists s'. cbn. by rewrite Hrun.
  - unfold loop_step. rewrite Hpc. destruct (IH s Hpc) as (s' & Hrun & Hpc').
    exists s'. cbn. by rewrite Hrun.
  - destruct (IH {| chart := chart s; locals := locals s; at_pc := at_pc s;
                    is_shutdown := true |} Hpc) as (s' & Hrun & Hpc').
    exists s'. cbn. by rewrite Hrun.
  - destruct (IH {| chart := waypoints_cb_locked (chart s) lane; locals := locals s;
                    at_pc := at_pc s; is_shutdown := is_shutdown s |} Hpc)
      as (s' & Hrun & Hpc').
    exists s'. cbn. by rewrite Hrun.
Qed.

Lemma shutdown_run_exits (es : list event) (s s' : sys) (out : list call) :
  is_shutdown s = true → steps_to_exit (at_pc s) ≤ count_steps es →
  run s es = Ok (s', out) → at_pc s' = Exited.
Proof.
  revert s out. induction es as [|e es IH]; intros s out Hsh Hn; cbn [run].
  - intros [= <- <-]. revert Hn. destruct (at_pc s); cbn; intros Hn; (done || lia).
  - destruct (sys_step s e) as [[s1 out1]|] eqn:E1; [|done]. cbn.
    destruct (run s1 es) as [[s2 out2]|] eqn:E2; [|done]. cbn.
    intros [= <- <-]. apply (IH s1 out2); [| |exact E2].
    + destruct e as [m| | |lane]; cbn in E1.
      * by injection E1 as <- <-.
      * by destruct (loop_step_towards_exit s s1 out1 Hsh E1).
      * by injection E1 as <- <-.
      * by injection E1 as <- <-.
    + destruct e as [m| | |lane]; cbn in E1, Hn.
      * by injection E1 as <- <-.
      * destruct (loop_step_towards_exit s s1 out1 Hsh E1) as (_ & [Hlt|(_ & -> & _)]);
          cbn; lia.
      * by injection E1 as <- <-.
      * by injection E1 as <- <-.
Qed.

(** X11.  Once the shutdown is requested the loop leaves at its next loop
    head: whatever callbacks still arrive, after at most eight further loop
    steps that do not raise the loop thread has left [loop], and from then
    on no schedule makes it call anything or raise. *)
Theorem shutdown_exits_and_stays_silent (es es' : list event) (s s' : sys) (out : list call) :
  is_shutdown s = true → 8 ≤ count_steps es → run s es = Ok (s', out) →
  at_pc s' = Exited
  ∧ ∃ s'', run s' es' = Ok (s'', []) ∧ at_pc s'' = Exited.
Proof.
  intros Hsh Hn Hrun.
  assert (at_pc s' = Exited) as Hpc.
  { apply (shutdown_run_exits es s s' out Hsh); [|exact Hrun].
    destruct (at_pc s); cbn; lia. }
  split; [exact Hpc|]. by apply exited_stays_silent.
Qed.

Lemma shutdown_exits_and_stays_silent_witness :
  at_pc (at_line (drained (pose_cb ready_chart (pose_at 1 1)))
           (set_update_chart false (set_first_iter false init_locals)) Exited true)
  = Exited
  ∧ ∃ s'', run (at_line (drained (pose_cb ready_chart (pose_at 1 1)))
                  (set_update_chart false (set_first_iter false init_locals)) Exited true)
             [step; callback (pose_msg (pose_at 2 2)); step]
           = Ok (s'', [])
           ∧ at_pc s'' = Exited.
Proof.
  apply (shutdown_exits_and_stays_silent
           (replicate 8 step) [step; callback (pose_msg (pose_at 2 2)); step]
           (at_line (pose_cb ready_chart (pose_at 1 1)) init_locals AtPoseCheck true)
           _
           [ax_plot car_dot (scalar 1) (scalar 1) "ko" None;
            canvas_draw; plt_pause pause_interval; rate_sleep]).
  - reflexivity.
  - cbn. lia.
  - reflexivity.
Defined.

(** ** What the loop can raise *)

Lemma deliver_quiet_lights_stay (self : Chart) (m : message) :
  traffic_lights self ≠ None → traffic_lights (deliver_quiet self m) ≠ None.
Proof.
  intros H. destruct m as [msg|msg|msg|msg]; try done.
  unfold deliver_quiet. cbn. unfold waypoints_cb.
  by destruct (length (waypoints self) =? 0).
Qed.

Lemma loop_step_reaches_tl_get (s s' : sys) (out : list call) :
  loop_step s = Ok (s', out) → at_pc s' = AtTlGet → traffic_lights (chart s) ≠ None.
Proof.
  unfold loop_step. intros H. destruct (at_pc s) eqn:E.
  - destruct (is_shutdown s); [by injection H as <- <-|].
    destruct (length (get_waypoints (chart s)) =? 0); injection H as <- <-;
      rewrite ?E; done.
  - destruct (is_shutdown s); by injection H as <- <-.
  - destruct (pose_updated (chart s)); by injection H as <- <-.
  - destruct (pose_get_step (chart s) (locals s)) as [[[self' l'] o]|]; [|done].
    by injection H as <- <-.
  - destruct (path_updated (chart s)); by injection H as <- <-.
  - destruct (path_get_step (chart s) (locals s)) as [[self' l'] o].
    by injection H as <- <-.
  - destruct (traffic_lights (chart s)) eqn:Ht; by injection H as <- <-.
  - destruct (tl_get_step (chart s) (locals s)) as [[l' o]|]; [|done].
    by injection H as <- <-.
  - destruct (redraw (locals s)) as [l' o]. by injection H as <- <-.
  - injection H as <- <-. rewrite E. done.
Qed.

Lemma sys_step_node_inv (s s' : sys) (e : event) (out : list call) :
  node_inv s → sys_step s e = Ok (s', out) → node_inv s'.
Proof.
  intros (Hc & Hget & Htl) Hstep. split; [by eapply sys_step_consistent|].
  destruct e as [m| | |lane]; cbn [sys_step] in Hstep; [| | |by injection Hstep as <- <-].
  - injection Hstep as <- <-. cbn. split.
    + intros Hpc. by apply deliver_quiet_keeps_flag, Hget.
    + intros Hpc. by apply deliver_quiet_lights_stay, Htl.
  - split.
    + intros Hpc. pose proof (loop_step_reaches_get s s' out Hstep Hpc) as Hcheck.
      assert (at_pc s ≠ AtPoseGet) as Hn by congruence.
      destruct (loop_step_keeps_pose s s' out Hn Hstep) as (_ & Hu & Hflag).
      rewrite Hu. by apply Hflag.
    + intros Hpc. destruct (loop_step_keeps_track s s' out Hstep) as (_ & _ & -> & _).
      by eapply loop_step_reaches_tl_get.
  - by injection Hstep as <- <-.
Qed.

Lemma tl_iter_raises_index (tls : list Light)
    (acc : result (list float * list float * list string)) (x : exn) :
  foldl tl_iter acc tls = Raise x → acc = Raise x ∨ x = IndexError.
Proof.
  revert acc. induction tls as [|tl tls IH]; intros acc; cbn [foldl]; [by left|].
  intros H. destruct (IH _ H) as [Hacc|Hx]; [|by right].
  unfold tl_iter in Hacc. destruct acc as [[[tl_x tl_y] tl_c]|x']; cbn in Hacc.
  - right. unfold tuple_index in Hacc.
    destruct (tl_marker !! N.to_nat tl.2); cbn in Hacc; congruence.
  - left. congruence.
Qed.

Lemma cycle_next_raises (it : cycle) (x : exn) :
  cycle_next it = Raise x → x = StopIteration.
Proof.
  unfold cycle_next. destruct (saved it !! _); [done|]. by intros [= <-].
Qed.

Lemma str_index0_raises (s : string) (x : exn) :
  str_index0 s = Raise x → x = IndexError.
Proof. destruct s; [by intros [= <-]|done]. Qed.

Lemma tl_render_raises (tls : list Light) (l : Locals) (x : exn) :
  tl_render (Some tls) l = Raise x → x = StopIteration ∨ x = IndexError.
Proof.
  unfold tl_render.
  destruct (foldl tl_iter (Ok ([], [], [])) tls) as [[[tl_x tl_y] tl_c]|x'] eqn:E.
  - cbn. destruct (first_tl_iter l).
    + destruct (cycle_next (itertools_cycle tl_c)) as [[m it]|x1] eqn:E1; cbn; [done|].
      intros [= <-]. left. by eapply cycle_next_raises.
    + destruct (cycle_next (itertools_cycle tl_c)) as [[m1 it]|x1] eqn:E1; cbn.
      * destruct (str_index0 m1) as [face|x2] eqn:E2; cbn.
        -- destruct (cycle_next it) as [[m2 it']|x3] eqn:E3; cbn.
           ++ destruct (str_index0 m2) as [edge|x4] eqn:E4; cbn; [done|].
              intros [= <-]. right. by eapply str_index0_raises.
           ++ intros [= <-]. left. by eapply cycle_next_raises.
        -- intros [= <-]. right. by eapply str_index0_raises.
      * intros [= <-]. left. by eapply cycle_next_raises.
  - cbn. intros [= <-]. right.
    by destruct (tl_iter_raises_index _ _ _ E).
Qed.

Lemma loop_step_raises (s : sys) (x : exn) :
  node_inv s → loop_step s = Raise x → x = StopIteration ∨ x = IndexError.
Proof.
  intros (Hc & Hget & Htl). unfold loop_step. destruct (at_pc s) eqn:E.
  - destruct (is_shutdown s); [done|].
    by destruct (length (get_waypoints (chart s)) =? 0).
  - by destruct (is_shutdown s).
  - by destruct (pose_updated (chart s)).
  - unfold pose_get_step, get_pose, pose_render.
    destruct (pose (chart s)) as [[px py]|] eqn:Hp.
    + by destruct (first_iter (locals s)).
    + by destruct (Hc (Hget eq_refl)).
  - by destruct (path_updated (chart s)).
  - by destruct (path_get_step (chart s) (locals s)) as [[self' l'] o].
  - by destruct (traffic_lights (chart s)).
  - unfold tl_get_step, get_traffic_lights.
    destruct (traffic_lights (chart s)) as [tls|] eqn:Ht; [|by destruct (Htl eq_refl)].
    destruct (tl_render (Some tls) (locals s)) as [[l' o]|x'] eqn:Er; [done|].
    cbn. intros [= <-]. by eapply tl_render_raises.
  - by destruct (redraw (locals s)).
  - done.
Qed.

Lemma boot_node_inv : node_inv boot.
Proof. by repeat split. Qed.

(** X12.  Whatever is delivered and however the threads interleave, the
    loop never fails on a missing value: unpacking the pose (line 112) and
    iterating the lights (line 138) never meet [None].  The only exceptions
    a run of the node can end with are StopIteration and IndexError, both
    from the traffic-light block. *)
Theorem loop_raises_only_from_lights (es : list event) (x : exn) :
  run boot es = Raise x → x = StopIteration ∨ x = IndexError.
Proof.
  enough (∀ s, node_inv s → run s es = Raise x → x = StopIteration ∨ x = IndexError)
    as H by apply (H boot boot_node_inv).
  induction es as [|e es IH]; intros s Hinv; cbn [run]; [done|].
  destruct (sys_step s e) as [[s1 out1]|x1] eqn:E1; cbn.
  - destruct (run s1 es) as [[s2 out2]|x2] eqn:E2; cbn; [done|].
    intros [= <-]. apply (IH s1); [by eapply sys_step_node_inv|exact E2].
  - intros [= <-]. destruct e as [m| | |lane]; cbn in E1; try done.
    by apply (loop_step_raises s).
Qed.

Lemma loop_raises_only_from_lights_witness :
  run boot (callback (track_msg track3) :: callback (signal_msg (lights_at []))
            :: replicate 6 step)
  = Raise StopIteration
  ∧ (StopIteration = StopIteration ∨ StopIteration = IndexError).
Proof.
  split; [reflexivity|].
  apply (loop_raises_only_from_lights
           (callback (track_msg track3) :: callback (signal_msg (lights_at []))
            :: replicate 6 step)).
  reflexivity.
Defined.

Lemma showable_lights_ok (self : Chart) (m : message) :
  lights_ok self → showable (callback m) = true → lights_ok (deliver_quiet self m).
Proof.
  intros Hok Hm. destruct m as [msg|msg|msg|msg]; try done.
  - unfold deliver_quiet. cbn. unfold waypoints_cb.
    by destruct (length (waypoints self) =? 0).
  - intros tls Htls. change (deliver_quiet self (signal_msg msg))
      with (traffic_lights_cb self msg) in Htls.
    rewrite traffic_lights_cb_stores in Htls. injection Htls as <-.
    cbn in Hm. apply andb_prop in Hm as [Hne Hv]. split.
    + destruct (Msg.lights msg); [done|done].
    + apply Forall_fmap, Forall_forall. intros tl Hin.
      rewrite forallb_forall in Hv. cbn. apply N.ltb_lt, Hv.
      by apply list_elem_of_In.
Qed.

Lemma loop_step_goes_through (s : sys) :
  node_inv s → lights_ok (chart s) → ∃ s' out, loop_step s = Ok (s', out).
Proof.
  intros Hinv Hok. destruct (loop_step s) as [[s' out]|x] eqn:E; [by eexists _, _|].
  pose proof Hinv as (_ & _ & Htl).
  exfalso. unfold loop_step in E. destruct (at_pc s) eqn:Hpc.
  - destruct (is_shutdown s); [done|].
    by destruct (length (get_waypoints (chart s)) =? 0).
  - by destruct (is_shutdown s).
  - by destruct (pose_updated (chart s)).
  - destruct Hinv as (Hc & Hget & _).
    unfold pose_get_step, get_pose, pose_render in E.
    destruct (pose (chart s)) as [[px py]|] eqn:Hp.
    + by destruct (first_iter (locals s)).
    + by destruct (Hc (Hget Hpc)).
  - by destruct (path_updated (chart s)).
  - by destruct (path_get_step (chart s) (locals s)) as [[self' l'] o].
  - by destruct (traffic_lights (chart s)).
  - unfold tl_get_step, get_traffic_lights in E.
    destruct (traffic_lights (chart s)) as [tls|] eqn:Ht; [|by destruct (Htl eq_refl)].
    destruct (Hok tls Ht) as [Hne Hv]. destruct tls as [|tl0 rest]; [done|].
    destruct (tl_render_valid tl0 rest (locals s) Hv) as (out & Hr & _).
    by rewrite Hr in E.
  - by destruct (redraw (locals s)).
  - done.
Qed.

(** X13.  If every signal message delivered carries at least one light and
    only states below four, the node never raises: every schedule of
    callbacks, loop steps and shutdown runs to its end. *)
Theorem loop_never_raises_on_showable_lights (es : list event) :
  forallb showable es = true → ∃ s out, run boot es = Ok (s, out).
Proof.
  enough (∀ s0, node_inv s0 → lights_ok (chart s0) → forallb showable es = true →
                ∃ s out, run s0 es = Ok (s, out)) as H.
  { apply H; [apply boot_node_inv|]. intros tls Htls. discriminate Htls. }
  induction es as [|e es IH]; intros s0 Hinv Hok Hes; [by eexists _, _|].
  cbn in Hes. apply andb_prop in Hes as [He Hes]. cbn [run].
  assert (∃ s1 out1, sys_step s0 e = Ok (s1, out1) ∧ lights_ok (chart s1))
    as (s1 & out1 & Hstep & Hok1).
  { destruct e as [m| | |lane]; cbn [sys_step].
    - eexists _, _. split; [reflexivity|]. by apply showable_lights_ok.
    - destruct (loop_step_goes_through s0 Hinv Hok) as (s1 & out1 & Hstep).
      exists s1, out1. split; [exact Hstep|].
      destruct (loop_step_keeps_track s0 s1 out1 Hstep) as (_ & _ & Htl & _).
      intros tls Htls. apply Hok. congruence.
    - by eexists _, _.
    - by eexists _, _. }
  rewrite Hstep. cbn.
  destruct (IH s1 (sys_step_node_inv _ _ _ _ Hinv Hstep) Hok1 Hes) as (s & out & ->).
  by eexists _, _.
Qed.

Lemma loop_never_raises_on_showable_lights_witness :
  ∃ s out,
    run boot ([callback (track_msg track3);
               callback (signal_msg (lights_at [light_at 5 5 2; light_at 6 6 0]));
               callback (pose_msg (pose_at 1 1))] ++ replicate 20 step ++ [shutdown; step])
    = Ok (s, out).
Proof.
  apply (loop_never_raises_on_showable_lights
           ([callback (track_msg track3);
             callback (signal_msg (lights_at [light_at 5 5 2; light_at 6 6 0]));
             callback (pose_msg (pose_at 1 1))] ++ replicate 20 step ++ [shutdown; step])).
  reflexivity.
Defined.

(** ** The lines on the chart *)

Lemma replay_app (m : made) (cs1 cs2 : list call) :
  replay m (cs1 ++ cs2) = m' ← replay m cs1; replay m' cs2.
Proof.
  revert m. induction cs1 as [|c cs1 IH]; intros m; cbn; [reflexivity|].
  destruct (replay_call m c) as [m1|]; cbn; [apply IH | reflexivity].
Qed.

Lemma pose_render_replay (p : PoseValue) (l l' : Locals) (out : list call) :
  pose_render p l = Ok (l', out) → replay (made_in l) out = Some (made_in l').
Proof.
  unfold pose_render. destruct p as [[x y]|]; [|done].
  destruct (first_iter l) eqn:E; intros [= <- <-]; cbn; rewrite E; cbn; try done.
  unfold made_in. cbn. by rewrite E.
Qed.

Lemma path_iter_replay (acc : list float * list float * Locals * list call)
    (wp : Msg.Waypoint) (m0 : made) :
  replay m0 acc.2 = Some (made_in acc.1.2) →
  replay m0 (path_iter acc wp).2 = Some (made_in (path_iter acc wp).1.2).
Proof.
  destruct acc as [[[xs ys] l] out]. cbn. intros H.
  destruct (first_path_iter l) eqn:E; cbn; rewrite replay_app, H; cbn; rewrite E; cbn;
    try done.
  unfold made_in. cbn. by rewrite E.
Qed.

Lemma path_render_replay (path : list Msg.Waypoint) (l : Locals) :
  replay (made_in l) (path_render path l).2 = Some (made_in (path_render path l).1).
Proof.
  unfold path_render.
  assert (∀ acc, replay (made_in l) acc.2 = Some (made_in acc.1.2) →
                 replay (made_in l) (foldl path_iter acc path).2
                 = Some (made_in (foldl path_iter acc path).1.2)) as H.
  { induction path as [|wp path IH]; intros acc Hacc; [exact Hacc|].
    cbn [foldl]. by apply IH, path_iter_replay. }
  specialize (H ([], [], l, []) eq_refl).
  by destruct (foldl path_iter ([], [], l, []) path) as [[[xs ys] l'] out].
Qed.

Lemma tl_render_replay (tls : option (list Light)) (l l' : Locals) (out : list call) :
  tl_render tls l = Ok (l', out) → replay (made_in l) out = Some (made_in l').
Proof.
  unfold tl_render. destruct tls as [tls|]; [|done].
  destruct (foldl tl_iter (Ok ([], [], [])) tls) as [[[tl_x tl_y] tl_c]|]; [|done].
  cbn. destruct (first_tl_iter l) eqn:E.
  - destruct (cycle_next (itertools_cycle tl_c)) as [[m it]|]; [|done].
    cbn. intros [= <- <-]. cbn. by rewrite E.
  - destruct (cycle_next (itertools_cycle tl_c)) as [[m1 it]|]; [|done].
    cbn. destruct (str_index0 m1); [|done].
    cbn. destruct (cycle_next it) as [[m2 it']|]; [|done].
    cbn. destruct (str_index0 m2); [|done].
    cbn. intros [= <- <-]. cbn. rewrite E. cbn. unfold made_in. cbn. by rewrite E.
Qed.

Lemma loop_step_replay (s s' : sys) (out : list call) :
  loop_step s = Ok (s', out) → replay (made_of s) out = Some (made_of s').
Proof.
  unfold loop_step, made_of. intros H. destruct (at_pc s) eqn:Hpc.
  - destruct (is_shutdown s); [by injection H as <- <-|].
    destruct (length (get_waypoints (chart s)) =? 0); injection H as <- <-;
      cbn; by rewrite ?Hpc.
  - destruct (is_shutdown s); by injection H as <- <-.
  - destruct (pose_updated (chart s)); by injection H as <- <-.
  - unfold pose_get_step, get_pose in H.
    destruct (pose_render (pose (chart s)) (locals s)) as [[l' o]|] eqn:E; [|done].
    injection H as <- <-. cbn. by eapply pose_render_replay.
  - destruct (path_updated (chart s)); by injection H as <- <-.
  - unfold path_get_step, get_path in H.
    pose proof (path_render_replay (path (chart s)) (locals s)) as Hr.
    destruct (path_render (path (chart s)) (locals s)) as [l' o].
    by injection H as <- <-.
  - destruct (traffic_lights (chart s)); by injection H as <- <-.
  - unfold tl_get_step in H.
    destruct (tl_render (get_traffic_lights (chart s)) (locals s)) as [[l' o]|] eqn:E;
      [|done].
    injection H as <- <-. cbn. by eapply tl_render_replay.
  - unfold redraw in H. destruct (update_chart (locals s)); by injection H as <- <-.
  - injection H as <- <-. cbn. by rewrite Hpc.
Qed.

(** X14.  In every run of the node each line is created by one plot and
    never plotted again, and no call is made on a line before its plot, so
    [car_dot], [path_line] and [tl_dots] are bound whenever the loop uses
    them; the lines that exist are the track line, once the wait is over,
    and those whose first-time flag the loop has cleared. *)
Theorem lines_plotted_once_before_use (es : list event) (s : sys) (out : list call) :
  run boot es = Ok (s, out) → replay no_lines out = Some (made_of s).
Proof.
  enough (∀ s0 out0, run s0 es = Ok (s, out0) → replay (made_of s0) out0 = Some (made_of s))
    as H by apply (H boot).
  induction es as [|e es IH]; intros s0 out0; cbn [run].
  - by intros [= <- <-].
  - destruct (sys_step s0 e) as [[s1 out1]|] eqn:E1; [|done]. cbn.
    destruct (run s1 es) as [[s2 out2]|] eqn:E2; [|done]. cbn.
    intros [= <- <-]. rewrite replay_app.
    assert (replay (made_of s0) out1 = Some (made_of s1)) as ->.
    { destruct e as [m| | |lane]; cbn in E1.
      - by injection E1 as <- <-.
      - by apply loop_step_replay.
      - by injection E1 as <- <-.
      - by injection E1 as <- <-. }
    cbn. by apply IH.
Qed.

Lemma lines_plotted_once_before_use_witness :
  replay no_lines
    [rate_sleep;
     ax_plot track_line (seq [0; 1; 2]%float) (seq [0; 1; 2]%float) "b" None;
     plt_show;
     ax_plot car_dot (scalar 1) (scalar 1) "ko" None;
     canvas_draw; plt_pause pause_interval; rate_sleep;
     set_ydata car_dot (scalar 2); set_xdata car_dot (scalar 2)]
  = Some {| has_track := true; has_car := true; has_path := false; has_tl := false |}.
Proof.
  apply (lines_plotted_once_before_use
           ([callback (track_msg track3); step; step;
             callback (pose_msg (pose_at 1 1))] ++ replicate 6 step
            ++ [callback (pose_msg (pose_at 2 2))] ++ replicate 3 step)
           (at_line (drained (pose_cb ready_chart (pose_at 2 2)))
              (set_first_iter false init_locals) AtTlCheck false)).
  reflexivity.
Defined.

(** ** The path store under interleaving *)

Lemma deliver_quiet_path (self : Chart) (m : message) :
  match m with
  | path_msg msg =>
      path (deliver_quiet self m) = Msg.waypoints msg
      ∧ is_path_updated (deliver_quiet self m) = true
  | _ =>
      path (deliver_quiet self m) = path self
      ∧ is_path_updated (deliver_quiet self m) = is_path_updated self
  end.
Proof.
  unfold deliver_quiet. destruct m as [msg|msg|msg|msg]; cbn; try done.
  unfold waypoints_cb. by destruct (length (waypoints self) =? 0).
Qed.

Lemma loop_step_keeps_path (s s' : sys) (out : list call) :
  at_pc s ≠ AtPathGet → loop_step s = Ok (s', out) →
  path (chart s') = path (chart s)
  ∧ is_path_updated (chart s') = is_path_updated (chart s)
  ∧ (at_pc s' = AtPathGet → is_path_updated (chart s) = true).
Proof.
  unfold loop_step. intros Hpc H. destruct (at_pc s) eqn:E; try done.
  - destruct (is_shutdown s); [by injection H as <- <-|].
    destruct (length (get_waypoints (chart s)) =? 0); injection H as <- <-;
      rewrite ?E; done.
  - destruct (is_shutdown s); by injection H as <- <-.
  - destruct (pose_updated (chart s)); by injection H as <- <-.
  - unfold pose_get_step, get_pose in H.
    destruct (pose_render (pose (chart s)) (locals s)) as [[l' o]|]; [|done].
    by injection H as <- <-.
  - unfold path_updated in H.
    destruct (is_path_updated (chart s)) eqn:Hu; by injection H as <- <-.
  - destruct (traffic_lights (chart s)); by injection H as <- <-.
  - destruct (tl_get_step (chart s) (locals s)) as [[l' o]|]; [|done].
    by injection H as <- <-.
  - destruct (redraw (locals s)) as [l' o]. by injection H as <- <-.
  - injection H as <- <-. rewrite E. done.
Qed.

Lemma loop_step_at_path_get (s s' : sys) (out : list call) :
  at_pc s = AtPathGet → loop_step s = Ok (s', out) →
  path (chart s') = path (chart s)
  ∧ is_path_updated (chart s') = false
  ∧ at_pc s' = AtTlCheck.
Proof.
  unfold loop_step. intros -> H. unfold path_get_step, get_path in H.
  destruct (path_render (path (chart s)) (locals s)) as [l' o].
  by injection H as <- <-.
Qed.

Lemma path_log_inv (es : list event) (s : sys) (pre : list (list Msg.Waypoint))
    (lastk : nat) :
  path_store_inv s pre lastk →
  let log := path_log s (length pre) es in
  Forall (λ kv, lastk < kv.1) log
  ∧ StronglySorted lt log.*1
  ∧ Forall (λ kv, (pre ++ path_writes es) !! (kv.1 - 1) = Some kv.2) log.
Proof.
  revert s pre lastk. induction es as [|e es IH]; intros s pre lastk Hinv.
  { cbn. repeat split; constructor. }
  destruct Hinv as (Hlast & Hle & Hflag & Hpc).
  destruct e as [m| | |lane]; cbn [path_log sys_step].
  - (* a callback *)
    pose proof (deliver_quiet_path (chart s) m) as Hm.
    destruct m as [msg|msg|msg|msg]; cbn [path_writes app];
      destruct Hm as [Hp Hu].
    3: { (* path_cb *)
      specialize (IH {| chart := deliver_quiet (chart s) (path_msg msg); locals := locals s;
                        at_pc := at_pc s; is_shutdown := is_shutdown s |}
                     (pre ++ [Msg.waypoints msg]) lastk).
      rewrite length_app, Nat.add_1_r, <- app_assoc in IH. cbn [app] in IH.
      apply IH. repeat split; cbn [chart at_pc].
      - by rewrite last_snoc.
      - rewrite length_app. lia.
      - intros _. rewrite length_app. cbn. lia. }
    all: apply (IH {| chart := deliver_quiet (chart s) _; locals := locals s;
                      at_pc := at_pc s; is_shutdown := is_shutdown s |} pre lastk);
      repeat split; cbn [chart at_pc]; rewrite ?Hp, ?Hu; done.
  - (* a step of the loop thread *)
    unfold path_taken. destruct (decide (at_pc s = AtPathGet)) as [Hget|Hother].
    + rewrite Hget. destruct (loop_step s) as [[s' out]|] eqn:Hstep;
        [|by repeat split; constructor].
      destruct (loop_step_at_path_get s s' out Hget Hstep) as (Hp' & Hu' & Hpc').
      specialize (Hflag (Hpc Hget)). cbn [fst get_path app].
      destruct (IH s' pre (length pre)) as (Hgt & Hsorted & Hvals).
      { repeat split; [congruence|lia|congruence|congruence]. }
      cbn [path_writes]. repeat split.
      * constructor; [exact Hflag|]. eapply Forall_impl; [exact Hgt|].
        cbn. intros kv ?. lia.
      * cbn [fmap list_fmap]. constructor; [exact Hsorted|].
        apply Forall_fmap. exact Hgt.
      * constructor; [|exact Hvals]. cbn [fst snd].
        destruct (last pre) as [p|] eqn:Hl.
        -- rewrite lookup_app_l by lia. rewrite last_lookup in Hl.
           replace (length pre - 1) with (pred (length pre)) by lia.
           rewrite Hl, Hlast. reflexivity.
        -- apply last_None in Hl. subst pre. cbn in Hflag. lia.
    + assert (match at_pc s with AtPathGet => Some (get_path (chart s)).1 | _ => None end
              = None) as -> by (by destruct (at_pc s)).
      destruct (loop_step s) as [[s' out]|] eqn:Hstep;
        [|by repeat split; constructor].
      destruct (loop_step_keeps_path s s' out Hother Hstep) as (Hp' & Hu' & Hpc').
      cbn [app path_writes]. apply (IH s' pre lastk).
      repeat split; [congruence | lia | by rewrite Hu' | by rewrite Hu'].
  - (* shutdown *)
    cbn [app path_writes].
    apply (IH {| chart := chart s; locals := locals s; at_pc := at_pc s;
                 is_shutdown := true |} pre lastk).
    by repeat split.
  - (* the locked part of a track callback *)
    cbn [app path_writes].
    apply (IH {| chart := waypoints_cb_locked (chart s) lane; locals := locals s;
                 at_pc := at_pc s; is_shutdown := is_shutdown s |} pre lastk).
    by repeat split.
Qed.

Lemma boot_path_store_inv : path_store_inv boot [] 0.
Proof. repeat split; cbn; (lia || done). Qed.

(** X15.  The path store hands over as the pose store does.  Along every
    schedule run from the start of the node, the paths [get_path] returns
    to the loop are writes of strictly increasing number, each the last path
    delivered before the extraction, and in order they are a sublist of the
    paths delivered: none is returned twice, none after a later one. *)
Theorem path_taken_once_in_write_order (es : list event) :
  let log := path_log boot 0 es in
  StronglySorted lt log.*1
  ∧ Forall (λ kv, 1 ≤ kv.1
                  ∧ path_writes es !! (kv.1 - 1) = Some kv.2
                  ∧ last (take kv.1 (path_writes es)) = Some kv.2) log
  ∧ log.*2 `sublist_of` path_writes es.
Proof.
  destruct (path_log_inv es boot [] 0 boot_path_store_inv) as (Hpos & Hsorted & Hvals).
  cbn [length app] in *. set (log := path_log boot 0 es) in *. cbn zeta.
  split; [exact Hsorted|]. split.
  - apply Forall_forall. intros [k v] Hin.
    rewrite Forall_forall in Hpos, Hvals.
    specialize (Hpos _ Hin). specialize (Hvals _ Hin). cbn in *.
    split; [lia|]. split; [exact Hvals|].
    rewrite last_lookup.
    assert (k ≤ length (path_writes es)) as Hlen.
    { apply lookup_lt_Some in Hvals. lia. }
    rewrite length_take, Nat.min_l by exact Hlen.
    rewrite lookup_take_lt by lia.
    by replace (pred k) with (k - 1) by lia.
  - apply (increasing_reads_sublist _ log 0 Hsorted).
    apply Forall_forall. intros [k v] Hin.
    rewrite Forall_forall in Hpos, Hvals.
    specialize (Hpos _ Hin). specialize (Hvals _ Hin). cbn in *.
    split; [exact Hpos|]. by rewrite Nat.sub_0_r.
Qed.

(** A path delivered between the check and the extraction, and a second
    delivered before the next check: the loop takes the second of the first
    two and then the last. *)
Example path_log_interleaved :
  path_log boot 0
    ([callback (track_msg track3); step; step; step;
      callback (path_msg empty_lane); step;
      callback (path_msg track3); step]
     ++ replicate 4 step
     ++ [callback (path_msg track3); callback (path_msg empty_lane)]
     ++ replicate 3 step)
  = [(2, Msg.waypoints track3); (4, [])].
Proof. reflexivity. Qed.

(** ** What the stores hold *)

Lemma loop_step_keeps_values (s s' : sys) (out : list call) :
  loop_step s = Ok (s', out) →
  pose (chart s') = pose (chart s) ∧ path (chart s') = path (chart s).
Proof.
  intros H. split.
  - destruct (decide (at_pc s = AtPoseGet)) as [Hget|Hn].
    + by destruct (loop_step_at_get s s' out Hget H).
    + by destruct (loop_step_keeps_pose s s' out Hn H).
  - destruct (decide (at_pc s = AtPathGet)) as [Hget|Hn].
    + by destruct (loop_step_at_path_get s s' out Hget H).
    + by destruct (loop_step_keeps_path s s' out Hn H).
Qed.

Lemma run_values (es : list event) (s s' : sys) (out : list call) :
  run s es = Ok (s', out) →
  pose (chart s') = (if last (pose_writes es) is Some p then Some p else pose (chart s))
  ∧ path (chart s') = (if last (path_writes es) is Some p then p else path (chart s))
  ∧ traffic_lights (chart s')
    = (if last (signal_writes es) is Some tls then Some tls else traffic_lights (chart s)).
Proof.
  revert s out. induction es as [|e es IH]; intros s out; cbn [run].
  - by intros [= <- <-].
  - destruct (sys_step s e) as [[s1 out1]|] eqn:E1; [|done]. cbn.
    destruct (run s1 es) as [[s2 out2]|] eqn:E2; [|done]. cbn.
    intros [= <- <-]. destruct (IH s1 out2 E2) as (Hpose & Hpath & Htl).
    rewrite Hpose, Hpath, Htl. clear Hpose Hpath Htl IH E2.
    destruct e as [m| | |lane]; cbn in E1.
    + injection E1 as <- <-. cbn [chart].
      destruct m as [msg|msg|msg|msg]; cbn [pose_writes path_writes signal_writes].
      * unfold deliver_quiet. cbn. unfold waypoints_cb.
        by destruct (length (waypoints (chart s)) =? 0).
      * rewrite last_cons. cbn.
        repeat split. by destruct (last (pose_writes es)).
      * rewrite last_cons. cbn.
        repeat split. by destruct (last (path_writes es)).
      * rewrite last_cons. change (deliver_quiet (chart s) (signal_msg msg))
          with (traffic_lights_cb (chart s) msg).
        rewrite traffic_lights_cb_stores. cbn.
        repeat split. by destruct (last (signal_writes es)).
    + destruct (loop_step_keeps_values s s1 out1 E1) as [-> ->].
      by destruct (loop_step_keeps_track s s1 out1 E1) as (_ & _ & -> & _).
    + by injection E1 as <- <-.
    + by injection E1 as <- <-.
Qed.

Lemma run_whole_track (es : list event) (s s' : sys) (out : list call) :
  forallb whole es = true → run s es = Ok (s', out) →
  waypoints (chart s')
  = (if waypoints (chart s) is [] then first_track es else waypoints (chart s))
  ∧ subscribers (chart s')
    = subscribers (chart s)
      ++ concat (replicate (if waypoints (chart s) is [] then accepted_tracks es else 0)
                   update_topics).
Proof.
  revert s out. induction es as [|e es IH]; intros s out Hes; cbn [run].
  - intros [= <- <-]. cbn.
    destruct (waypoints (chart s)); cbn; by rewrite app_nil_r.
  - cbn in Hes. apply andb_prop in Hes as [He Hes].
    destruct (sys_step s e) as [[s1 out1]|] eqn:E1; [|done]. cbn.
    destruct (run s1 es) as [[s2 out2]|] eqn:E2; [|done]. cbn.
    intros [= <- <-]. destruct (IH s1 out2 Hes E2) as (Hw & Hsub).
    rewrite Hw, Hsub. clear Hw Hsub IH E2.
    destruct e as [m| | |lane]; cbn in E1; [| | |done].
    + injection E1 as <- <-. cbn [chart].
      destruct m as [msg|msg|msg|msg]; cbn [first_track accepted_tracks]; try done.
      unfold deliver_quiet. cbn. unfold waypoints_cb.
      destruct (waypoints (chart s)) as [|wp wps] eqn:Ew; cbn.
      * destruct (Msg.waypoints msg) as [|wp' wps'] eqn:Em; cbn.
        -- split; [done|]. by rewrite <- app_assoc.
        -- split; [done|]. by rewrite !app_nil_r.
      * by rewrite Ew.
    + by destruct (loop_step_keeps_track s s1 out1 E1) as (-> & -> & _).
    + by injection E1 as <- <-.
Qed.


(** X16.  The loop never writes a value into a store.  In every run of the
    node, overtaken track callbacks included, the pose store holds the last
    pose delivered, the path store the last path and the signal store the
    last snapshot, each whole, or their initial value if none was
    delivered; and when every track callback runs from its assertion to its
    end without being overtaken, the track is that of the first track
    message that had waypoints. *)
Theorem stores_hold_last_delivery (es : list event) (s : sys) (out : list call) :
  run boot es = Ok (s, out) →
  pose (chart s) = last (pose_writes es)
  ∧ path (chart s) = default [] (last (path_writes es))
  ∧ traffic_lights (chart s) = last (signal_writes es)
  ∧ (forallb whole es = true → waypoints (chart s) = first_track es).
Proof.
  intros H. destruct (run_values es boot s out H) as (Hpose & Hpath & Htl).
  cbn in *. repeat split.
  - rewrite Hpose. by destruct (last (pose_writes es)).
  - rewrite Hpath. by destruct (last (path_writes es)).
  - rewrite Htl. by destruct (last (signal_writes es)).
  - intros Hes. by destruct (run_whole_track es boot s out Hes H) as [-> _].
Qed.

Lemma stores_hold_last_delivery_witness :
  pose (drained (pose_cb ready_chart (pose_at 2 2))) = Some (2%float, 2%float)
  ∧ path (drained (pose_cb ready_chart (pose_at 2 2))) = []
  ∧ traffic_lights (drained (pose_cb ready_chart (pose_at 2 2))) = None
  ∧ waypoints (drained (pose_cb ready_chart (pose_at 2 2))) = Msg.waypoints track3.
Proof.
  destruct (stores_hold_last_delivery
           ([callback (track_msg track3); step; step;
             callback (pose_msg (pose_at 1 1))] ++ replicate 6 step
            ++ [callback (pose_msg (pose_at 2 2))] ++ replicate 3 step)
           (at_line (drained (pose_cb ready_chart (pose_at 2 2)))
              (set_first_iter false init_locals) AtTlCheck false)
           [rate_sleep;
            ax_plot track_line (seq [0; 1; 2]%float) (seq [0; 1; 2]%float) "b" None;
            plt_show;
            ax_plot car_dot (scalar 1) (scalar 1) "ko" None;
            canvas_draw; plt_pause pause_interval; rate_sleep;
            set_ydata car_dot (scalar 2); set_xdata car_dot (scalar 2)] eq_refl)
    as (Hpose & Hpath & Htl & Hw).
  split; [exact Hpose|]. split; [exact Hpath|]. split; [exact Htl|].
  apply Hw. reflexivity.
Defined.



(** ** When a tick redraws *)

Lemma path_iter_fold_changed (path : list Msg.Waypoint)
    (acc : list float * list float * Locals * list call) :
  update_chart (foldl path_iter acc path).1.2
  = update_chart acc.1.2 || negb (length path =? 0).
Proof.
  revert acc. induction path as [|wp path IH]; intros acc; cbn [foldl length Nat.eqb negb].
  - by rewrite orb_false_r.
  - rewrite IH. destruct acc as [[[xs ys] l] out]. cbn.
    destruct (first_path_iter l); cbn; destruct (length path =? 0);
      by rewrite ?orb_true_r.
Qed.

Lemma pose_phase_changed (self : Chart) (l : Locals) :
  pose_consistent self →
  ∃ self1 l1 out1,
    pose_phase self l = Ok (self1, l1, out1)
    ∧ update_chart l1 = update_chart l || is_pose_updated self
    ∧ is_path_updated self1 = is_path_updated self
    ∧ path self1 = path self
    ∧ traffic_lights self1 = traffic_lights self.
Proof.
  intros Hc. unfold pose_phase, pose_updated, pose_get_step, get_pose, pose_render.
  destruct (is_pose_updated self) eqn:Hup.
  - destruct (pose self) as [[x y]|] eqn:Hp; [|by destruct (Hc Hup)].
    destruct (first_iter l); cbn; eexists _, _, _; repeat split; cbn;
      by rewrite orb_true_r.
  - eexists _, _, _; repeat split. by rewrite orb_false_r.
Qed.

Lemma path_phase_changed (self : Chart) (l : Locals) :
  update_chart (path_phase self l).1.2
  = update_chart l || (is_path_updated self && negb (length (path self) =? 0)).
Proof.
  unfold path_phase, path_updated, path_get_step, get_path, path_render.
  destruct (is_path_updated self); [|by rewrite orb_false_r].
  pose proof (path_iter_fold_changed (path self) ([], [], l, [])) as H.
  by destruct (foldl path_iter ([], [], l, []) (path self)) as [[[xs ys] l'] out].
Qed.

Lemma tl_phase_changed (self : Chart) (l : Locals) :
  lights_ok self →
  ∃ l3 out3,
    tl_phase self l = Ok (l3, out3)
    ∧ update_chart l3 = (if traffic_lights self is Some _ then true else update_chart l).
Proof.
  intros Hok. unfold tl_phase, tl_get_step, get_traffic_lights.
  destruct (traffic_lights self) as [tls|] eqn:Htl; [|by eexists _, _].
  destruct (Hok tls Htl) as [Hne Hv].
  destruct tls as [|tl0 rest]; [done|].
  destruct (tl_render_valid tl0 rest l Hv) as (out & -> & _).
  by eexists _, _.
Qed.

(** X18.  What makes a tick redraw: [update_chart] is true at line 152
    exactly when it was still true from before the tick (as on the first
    tick), or a pose update was pending, or a path update with at least one
    waypoint was pending, or traffic lights are stored at all, updated or
    not. *)
Theorem redraw_decision (self : Chart) (l : Locals) :
  pose_consistent self → lights_ok self →
  changed self l
  = Ok (update_chart l
        || is_pose_updated self
        || (is_path_updated self && negb (length (path self) =? 0))
        || (if traffic_lights self is Some _ then true else false)).
Proof.
  intros Hc Hok.
  destruct (pose_phase_changed self l Hc)
    as (self1 & l1 & out1 & H1 & Hu1 & Hpu & Hpath & Htl1).
  pose proof (path_phase_changed self1 l1) as Hu2.
  pose proof (path_phase_keeps_lights self1 l1) as Htl2.
  destruct (path_phase self1 l1) as [[self2 l2] out2] eqn:E2. cbn in Hu2, Htl2.
  assert (lights_ok self2) as Hok2.
  { intros tls Htls. apply Hok. congruence. }
  destruct (tl_phase_changed self2 l2 Hok2) as (l3 & out3 & H3 & Hu3).
  unfold changed, tick_updates. rewrite H1. cbn. rewrite E2, H3. cbn.
  rewrite Hu3, Htl2, Htl1, Hu2, Hu1, Hpu, Hpath.
  destruct (traffic_lights self); [by rewrite orb_true_r | by rewrite orb_false_r].
Qed.

Lemma redraw_decision_witness :
  changed (path_cb ready_chart empty_lane) (set_update_chart false init_locals)
  = Ok (false || false || (true && negb (0 =? 0)) || false).
Proof.
  apply (redraw_decision (path_cb ready_chart empty_lane)
           (set_update_chart false init_locals)).
  - intros H. discriminate H.
  - intros tls H. discriminate H.
Defined.
